(** * ez-groupby-tree-mixin: a shallow embedding of the grouping engine

    The development follows [src/components/ez-groupby-tree-mixin.js].
    The JavaScript built-ins the mixin relies on ([==], [indexOf],
    [Array.prototype.sort], [parseInt], [String.prototype.match] with the
    mixin's regular expressions, [Date]) are modelled first, in [Module JS];
    the mixin's own methods follow, under their source names.

    Conventions of the model.
    - A JavaScript string is a [string] whose characters are UTF-16 code
      units below 256, so that comparing characters by their code is the
      comparison JavaScript performs.
    - A record field holds a string, an integer-valued number, or is absent
      ([VUndef]); numbers are exact (no rounding, no overflow), and integers
      print as plain decimal digits.
    - Computed aggregates are numbers of type [jsnum]: exact rationals, or
      [NaN].
    - Caller-owned objects that the mixin writes to (the grouping specs, the
      array handed to the quantile helper) live in a store and are passed by
      location, so that aliasing and in-place updates are visible. *)

From Stdlib Require Import ZArith QArith Qcanon Qround String Ascii List Lia DecimalString.
From Stdlib Require Import Sorting.Sorted Sorting.Permutation.
From stdpp Require Import base option list gmap strings sorting numbers.

Local Open Scope Z_scope.

(** ** Scalars held by records *)

Inductive value :=
  | VUndef
  | VNum (n : Z)
  | VStr (s : string).

Global Instance value_eq_dec : EqDecision value.
Proof. solve_decision. Defined.

(** Numbers computed by the aggregates. *)
Inductive jsnum :=
  | NaN
  | Num (q : Qc).

Global Instance jsnum_eq_dec : EqDecision jsnum.
Proof. solve_decision. Defined.

(** Thrown exceptions: every failure of the mixin is a [TypeError] raised by
    a property access on [null] or [undefined]. *)
Inductive result (A : Type) :=
  | Ok (a : A)
  | TypeError.
Arguments Ok {A} a.
Arguments TypeError {A}.

Global Instance result_eq_dec {A} `{EqDecision A} : EqDecision (result A).
Proof. solve_decision. Defined.

Module JS.

(** *** Characters *)

Definition code (c : ascii) : Z := Z.of_N (N_of_ascii c).

(** StrWhiteSpaceChar, restricted to code units below 256. *)
Definition is_whitespace (c : ascii) : bool :=
  let n := code c in
  (n =? 9) || (n =? 10) || (n =? 11) || (n =? 12) || (n =? 13)
  || (n =? 32) || (n =? 160).

(** LineTerminator: what [.] refuses to match. *)
Definition is_line_terminator (c : ascii) : bool :=
  let n := code c in (n =? 10) || (n =? 13).

(** The value of [c] as a digit, for radixes up to 16. *)
Definition digit_value (c : ascii) : option Z :=
  let n := code c in
  if (48 <=? n) && (n <=? 57) then Some (n - 48)
  else if (97 <=? n) && (n <=? 102) then Some (n - 87)
  else if (65 <=? n) && (n <=? 70) then Some (n - 55)
  else None.

Definition digit_in (radix : Z) (c : ascii) : option Z :=
  match digit_value c with
  | Some d => if d <? radix then Some d else None
  | None => None
  end.

(** Longest prefix of radix-[radix] digits, as values, with the rest. *)
Fixpoint take_digits (radix : Z) (s : string) : list Z * string :=
  match s with
  | EmptyString => ([], EmptyString)
  | String c s' =>
      match digit_in radix c with
      | Some d => let '(ds, r) := take_digits radix s' in (d :: ds, r)
      | None => ([], s)
      end
  end.

Definition digits_value (radix : Z) (ds : list Z) : Z :=
  fold_left (fun acc d => acc * radix + d) ds 0.

Fixpoint trim_start (s : string) : string :=
  match s with
  | EmptyString => EmptyString
  | String c s' => if is_whitespace c then trim_start s' else s
  end.

Fixpoint string_rev_acc (s acc : string) : string :=
  match s with
  | EmptyString => acc
  | String c s' => string_rev_acc s' (String c acc)
  end.

Definition string_rev (s : string) : string := string_rev_acc s EmptyString.

Definition trim (s : string) : string :=
  string_rev (trim_start (string_rev (trim_start s))).

(** *** ToString *)

Definition Z_to_string (n : Z) : string := NilZero.string_of_int (Z.to_int n).

Definition ToString (v : value) : string :=
  match v with
  | VUndef => "undefined"
  | VNum n => Z_to_string n
  | VStr s => s
  end.

(** ToString of an optional string property: [undefined] when absent.
    Used for property keys ([data[i][group.field]]) and for the subject of
    [RegExp.prototype.test]. *)
Definition key_of (f : option string) : string :=
  match f with Some s => s | None => "undefined" end.

(** *** parseInt, without radix argument *)

Definition strip_sign (s : string) : bool * string :=
  match s with
  | String "-" s' => (true, s')
  | String "+" s' => (false, s')
  | _ => (false, s)
  end.

Definition strip_hex_prefix (s : string) : option string :=
  match s with
  | String "0" (String "x" s') => Some s'
  | String "0" (String "X" s') => Some s'
  | _ => None
  end.

Definition parseInt_string (input : string) : option Z :=
  let '(neg, s) := strip_sign (trim_start input) in
  let '(radix, s) :=
    match strip_hex_prefix s with
    | Some s' => (16, s')
    | None => (10, s)
    end in
  match take_digits radix s with
  | ([], _) => None
  | (ds, _) =>
      let n := digits_value radix ds in
      Some (if neg then - n else n)
  end.

Definition parseInt (v : value) : jsnum :=
  match parseInt_string (ToString v) with
  | Some n => Num (Qc_of_Z n)
  | None => NaN
  end.

(** *** StringToNumber, used by [==] between a number and a string *)

Inductive strnum :=
  | SNaN
  | SInf (negative : bool)
  | SFin (q : Q).

Definition pow10 (e : Z) : Q :=
  if 0 <=? e then inject_Z (10 ^ e) else / inject_Z (10 ^ (- e)).

Definition non_decimal_literal (radix : Z) (s : string) : strnum :=
  match take_digits radix s with
  | ([], _) => SNaN
  | (ds, EmptyString) => SFin (inject_Z (digits_value radix ds))
  | (_, String _ _) => SNaN
  end.

(** ExponentPart followed by the end of the string. *)
Definition exponent_part (s : string) : option Z :=
  match s with
  | EmptyString => Some 0
  | String c s' =>
      if ((code c =? 101) || (code c =? 69))%bool then
        let '(neg, s'') := strip_sign s' in
        match take_digits 10 s'' with
        | ([], _) => None
        | (ds, EmptyString) =>
            let e := digits_value 10 ds in Some (if neg then - e else e)
        | (_, String _ _) => None
        end
      else None
  end.

Definition unsigned_decimal_literal (s : string) : strnum :=
  if String.eqb s "Infinity" then SInf false else
  let '(ip, r) := take_digits 10 s in
  let '(fp, r) :=
    match r with
    | String "." r' => take_digits 10 r'
    | _ => ([], r)
    end in
  match ip, fp with
  | [], [] => SNaN
  | _, _ =>
      match exponent_part r with
      | None => SNaN
      | Some e =>
          let m := inject_Z (digits_value 10 (ip ++ fp)) in
          SFin (Qred (m * pow10 (e - Z.of_nat (length fp))))
      end
  end.

Definition strnum_opp (x : strnum) : strnum :=
  match x with
  | SNaN => SNaN
  | SInf b => SInf (negb b)
  | SFin q => SFin (- q)
  end.

Definition StringToNumber (input : string) : strnum :=
  match trim input with
  | EmptyString => SFin 0
  | String "0" (String "x" r) | String "0" (String "X" r) => non_decimal_literal 16 r
  | String "0" (String "o" r) | String "0" (String "O" r) => non_decimal_literal 8 r
  | String "0" (String "b" r) | String "0" (String "B" r) => non_decimal_literal 2 r
  | String "-" r => strnum_opp (unsigned_decimal_literal r)
  | String "+" r => unsigned_decimal_literal r
  | s => unsigned_decimal_literal s
  end.

(** *** Equality *)

(** [x === y], the comparison made by [indexOf]. *)
Definition strict_eq (x y : value) : bool := bool_decide (x = y).

(** [x == y]: a number and a string are compared as numbers. *)
Definition num_eq_string (n : Z) (s : string) : bool :=
  match StringToNumber s with
  | SFin q => Qeq_bool q (inject_Z n)
  | _ => false
  end.

Definition loose_eq (x y : value) : bool :=
  match x, y with
  | VUndef, VUndef => true
  | VNum a, VNum b => a =? b
  | VStr a, VStr b => String.eqb a b
  | VNum a, VStr s => num_eq_string a s
  | VStr s, VNum a => num_eq_string a s
  | _, _ => false
  end.

(** [list.indexOf(val) == -1] is the negation of this. *)
Definition indexOf_found (list : list value) (val : value) : bool :=
  existsb (strict_eq val) list.

(** *** Array.prototype.sort *)

(** The sort is stable; it is modelled as a stable insertion sort driven by
    the three-way result of SortCompare. *)
Section Sort.
Context {A : Type} (cmp : A -> A -> comparison).

Fixpoint sort_insert (x : A) (l : list A) : list A :=
  match l with
  | [] => [x]
  | y :: l' =>
      match cmp x y with
      | Gt => y :: sort_insert x l'
      | _ => x :: l
      end
  end.

Definition sort (l : list A) : list A := foldr sort_insert [] l.
End Sort.

(** SortCompare without a comparator: [undefined] last, everything else by
    the code units of its ToString. *)
Definition default_compare (x y : value) : comparison :=
  match x, y with
  | VUndef, VUndef => Eq
  | VUndef, _ => Gt
  | _, VUndef => Lt
  | _, _ => String.compare (ToString x) (ToString y)
  end.

(** *** Number arithmetic *)

Definition add (x y : jsnum) : jsnum :=
  match x, y with Num a, Num b => Num (a + b) | _, _ => NaN end.
Definition sub (x y : jsnum) : jsnum :=
  match x, y with Num a, Num b => Num (a - b) | _, _ => NaN end.
Definition mul (x y : jsnum) : jsnum :=
  match x, y with Num a, Num b => Num (a * b) | _, _ => NaN end.


(** [x < y]; false as soon as one side is [NaN]. *)
Definition lt (x y : jsnum) : bool :=
  match x, y with Num a, Num b => bool_decide (a < b)%Qc | _, _ => false end.

(** ToNumber of an array element read out of range ([undefined]). *)
Definition to_number (o : option jsnum) : jsnum :=
  match o with Some x => x | None => NaN end.

(** SortCompare with the comparator [function(a, b) { return a - b; }]:
    a [NaN] difference counts as [+0]. *)
Definition difference_compare (a b : jsnum) : comparison :=
  match sub a b with
  | NaN => Eq
  | Num d => if bool_decide (d < 0)%Qc then Lt
             else if bool_decide (0 < d)%Qc then Gt else Eq
  end.

Definition MIN_SAFE_INTEGER : Z := - (2 ^ 53 - 1).
Definition MAX_SAFE_INTEGER : Z := 2 ^ 53 - 1.

(** *** The mixin's regular expressions *)

(** [/^p/.test(s)]. *)
Definition test_prefix (p s : string) : bool := String.prefix p s.

(** The longest prefix of [s] that a run of [.] can match. *)
Fixpoint line_prefix (s : string) : string :=
  match s with
  | EmptyString => EmptyString
  | String c s' =>
      if is_line_terminator c then EmptyString else String c (line_prefix s')
  end.

(** What precedes the last closing parenthesis of [s]. *)
Fixpoint before_last_close (s : string) : option string :=
  match s with
  | EmptyString => None
  | String c s' =>
      match before_last_close s' with
      | Some t => Some (String c t)
      | None => if Ascii.eqb c ")" then Some EmptyString else None
      end
  end.

(** [s.match(re)] for the mixin's pattern [re]: an opening parenthesis, a
    greedy group of any characters but line terminators, a closing
    parenthesis.  [None] is the [null] of a failed match, [Some t] a match
    whose first group is [t].  The leftmost opening parenthesis that can be
    closed on its line wins, and the group extends to the last closing
    parenthesis of that line. *)
Fixpoint match_parens (s : string) : option string :=
  match s with
  | EmptyString => None
  | String c s' =>
      if Ascii.eqb c "(" then
        match before_last_close (line_prefix s') with
        | Some t => Some t
        | None => match_parens s'
        end
      else match_parens s'
  end.

(** [s.split(/,/)]. *)
Fixpoint split_comma (s : string) : list string :=
  match s with
  | EmptyString => [EmptyString]
  | String c s' =>
      if Ascii.eqb c "," then EmptyString :: split_comma s'
      else match split_comma s' with
           | t :: ts => String c t :: ts
           | [] => [String c EmptyString]
           end
  end.

(** [s.replace(/,/g, " ")]. *)
Fixpoint replace_commas (s : string) : string :=
  match s with
  | EmptyString => EmptyString
  | String c s' => String (if Ascii.eqb c "," then " "%char else c) (replace_commas s')
  end.

(** [s.slice(0, k)]. *)
Fixpoint slice0 (k : nat) (s : string) : string :=
  match k, s with
  | S k', String c s' => String c (slice0 k' s')
  | _, _ => EmptyString
  end.

(** *** Date *)

Definition msPerDay : Z := 86400000.
Definition Day (t : Z) : Z := t / msPerDay.
Definition TimeWithinDay (t : Z) : Z := t mod msPerDay.

(** Year, month (1-12) and day of the month of a day number counted from
    1970-01-01, in the proleptic Gregorian calendar. *)
Definition civil_from_days (days : Z) : Z * Z * Z :=
  let z := days + 719468 in
  let era := z / 146097 in
  let doe := z - era * 146097 in
  let yoe := (doe - doe / 1460 + doe / 36524 - doe / 146096) / 365 in
  let doy := doe - (365 * yoe + yoe / 4 - yoe / 100) in
  let mp := (5 * doy + 2) / 153 in
  let d := doy - (153 * mp + 2) / 5 + 1 in
  let m := if mp <? 10 then mp + 3 else mp - 9 in
  let y := yoe + era * 400 + (if m <=? 2 then 1 else 0) in
  (y, m, d).

Definition days_from_civil (y m d : Z) : Z :=
  let y' := if m <=? 2 then y - 1 else y in
  let era := y' / 400 in
  let yoe := y' - era * 400 in
  let doy := (153 * (if 2 <? m then m - 3 else m + 9) + 2) / 5 + d - 1 in
  let doe := yoe * 365 + yoe / 4 - yoe / 100 + doy in
  era * 146097 + doe - 719468.

Definition YearFromTime (t : Z) : Z := (civil_from_days (Day t)).1.1.
Definition MonthFromTime (t : Z) : Z := (civil_from_days (Day t)).1.2.
Definition DateFromTime (t : Z) : Z := (civil_from_days (Day t)).2.

(** A time value is an integer of magnitude at most 8.64e15; anything else
    is the [NaN] of an invalid date. *)
Definition TimeClip (t : Z) : option Z :=
  if Z.abs t <=? 8640000000000000 then Some t else None.

(** [n] in decimal, left-padded with zeros to [w] characters. *)
Fixpoint zeros (k : nat) : string :=
  match k with O => EmptyString | S k' => String "0" (zeros k') end.

Definition pad (w : nat) (n : Z) : string :=
  let s := Z_to_string n in
  zeros (w - String.length s) +:+ s.

Definition year_string (y : Z) : string :=
  if (0 <=? y) && (y <=? 9999) then pad 4 y
  else (if y <? 0 then "-" else "+") +:+ pad 6 (Z.abs y).

(** [Date.prototype.toISOString] on a valid time value. *)
Definition toISOString (t : Z) : string :=
  let w := TimeWithinDay t in
  year_string (YearFromTime t) +:+ "-" +:+ pad 2 (MonthFromTime t) +:+ "-"
  +:+ pad 2 (DateFromTime t) +:+ "T" +:+ pad 2 (w / 3600000) +:+ ":"
  +:+ pad 2 (w / 60000 mod 60) +:+ ":" +:+ pad 2 (w / 1000 mod 60) +:+ "."
  +:+ pad 3 (w mod 1000) +:+ "Z".

(** *** A sample host: the date-time string format of ECMAScript, in UTC

    [Date.parse] is host-defined outside the standard format, so the mixin
    is modelled over an arbitrary [Date_parse].  The examples run on this
    one, which accepts exactly [YYYY], [YYYY-MM], [YYYY-MM-DD] (with the
    expanded years [+YYYYYY] and [-YYYYYY]), optionally followed by
    [THH:mm], [THH:mm:ss] or [THH:mm:ss.sss] and by [Z] or an offset
    [+HH:mm] / [-HH:mm], and whose local time zone is UTC. *)

Fixpoint take_n_digits (n : nat) (s : string) : option (list Z * string) :=
  match n with
  | O => Some ([], s)
  | S n' =>
      match s with
      | String c s' =>
          d ← digit_in 10 c;
          '(ds, r) ← take_n_digits n' s';
          Some (d :: ds, r)
      | EmptyString => None
      end
  end.

Definition number_of_width (n : nat) (s : string) : option (Z * string) :=
  '(ds, r) ← take_n_digits n s; Some (digits_value 10 ds, r).

Definition expect (c : ascii) (s : string) : option string :=
  match s with
  | String c' s' => if Ascii.eqb c c' then Some s' else None
  | EmptyString => None
  end.

Definition is_leap (y : Z) : bool :=
  ((y mod 4 =? 0) && negb (y mod 100 =? 0)) || (y mod 400 =? 0).

Definition days_in_month (y m : Z) : Z :=
  if m =? 2 then (if is_leap y then 29 else 28)
  else if (m =? 4) || (m =? 6) || (m =? 9) || (m =? 11) then 30 else 31.

Definition iso_year (s : string) : option (Z * string) :=
  match s with
  | String "+" s' => number_of_width 6 s'
  | String "-" s' =>
      '(y, r) ← number_of_width 6 s';
      if y =? 0 then None else Some (- y, r)
  | _ => number_of_width 4 s
  end.

(** [-MM] and [-DD], each optional; a missing one counts as 1. *)
Definition iso_month_day (s : string) : option (Z * Z * string) :=
  match s with
  | String "-" s' =>
      '(m, r) ← number_of_width 2 s';
      match r with
      | String "-" r' =>
          '(d, r'') ← number_of_width 2 r'; Some (m, d, r'')
      | _ => Some (m, 1, r)
      end
  | _ => Some (1, 1, s)
  end.

(** The offset from UTC in minutes, followed by the end of the string. *)
Definition iso_offset (s : string) : option Z :=
  match s with
  | EmptyString => Some 0
  | String "Z" EmptyString => Some 0
  | String c s' =>
      if Ascii.eqb c "+" || Ascii.eqb c "-" then
        '(h, r) ← number_of_width 2 s';
        r' ← expect ":" r;
        '(mi, r'') ← number_of_width 2 r';
        match r'' with
        | EmptyString =>
            if (h <=? 23) && (mi <=? 59) then
              Some (if Ascii.eqb c "-" then - (h * 60 + mi) else h * 60 + mi)
            else None
        | String _ _ => None
        end
      else None
  end.

(** Milliseconds within the day, minus the offset; [None] when malformed. *)
Definition iso_time (s : string) : option Z :=
  match s with
  | EmptyString => Some 0
  | String "T" s' =>
      '(h, r) ← number_of_width 2 s';
      r ← expect ":" r;
      '(mi, r) ← number_of_width 2 r;
      '(sec, ms, r) ←
        match r with
        | String ":" r' =>
            '(sec, r'') ← number_of_width 2 r';
            match r'' with
            | String "." r3 =>
                '(ms, r4) ← number_of_width 3 r3; Some (sec, ms, r4)
            | _ => Some (sec, 0, r'')
            end
        | _ => Some (0, 0, r)
        end;
      off ← iso_offset r;
      if ((h <=? 23) && (mi <=? 59) && (sec <=? 59))
         || ((h =? 24) && (mi =? 0) && (sec =? 0) && (ms =? 0)) then
        Some (h * 3600000 + mi * 60000 + sec * 1000 + ms - off * 60000)
      else None
  | String _ _ => None
  end.

Definition iso_Date_parse (s : string) : option Z :=
  '(y, r) ← iso_year s;
  '(m, d, r) ← iso_month_day r;
  w ← iso_time r;
  if (1 <=? m) && (m <=? 12) && (1 <=? d) && (d <=? days_in_month y m) then
    TimeClip (days_from_civil y m d * msPerDay + w)
  else None.

End JS.

(** ** Exceptions and stores *)

(** Sequencing for an expression that may throw: [let? x := e in k]. *)
Definition result_bind {A B} (m : result A) (f : A -> result B) : result B :=
  match m with
  | Ok a => f a
  | TypeError => TypeError
  end.

Notation "'let?' x := m 'in' k" := (result_bind m (fun x => k))
  (at level 10, x name, m at level 100, k at level 200, only parsing).
Notation "'let?' ' p := m 'in' k" := (result_bind m (fun x => match x with p => k end))
  (at level 10, p pattern, m at level 100, k at level 200, only parsing).

(** A computation over a store of type [S]: it ends normally or by a throw,
    and the store keeps whatever was written before a throw.  Sequencing is
    written [let* x := m in k]. *)
Definition M (S A : Type) : Type := S -> result A * S.

Definition ret {S A} (a : A) : M S A := fun s => (Ok a, s).

Definition bind {S A B} (m : M S A) (f : A -> M S B) : M S B := fun s =>
  match m s with
  | (Ok a, s') => f a s'
  | (TypeError, s') => (TypeError, s')
  end.

Notation "'let*' x := m 'in' k" := (bind m (fun x => k))
  (at level 10, x name, m at level 100, k at level 200, only parsing).
Notation "'let*' ' p := m 'in' k" := (bind m (fun x => match x with p => k end))
  (at level 10, p pattern, m at level 100, k at level 200, only parsing).

Definition lift {S A} (r : result A) : M S A := fun s => (r, s).

(** Objects are named by locations. *)
Abbreviation loc := nat (only parsing).

(** [o.p] for an object reference [o]: reading through a missing object
    throws. *)
Definition deref {V} (l : loc) : M (gmap loc V) V := fun s =>
  match s !! l with
  | Some v => (Ok v, s)
  | None => (TypeError, s)
  end.

Definition assign {V} (l : loc) (v : V) : M (gmap loc V) unit := fun s =>
  (Ok tt, <[l := v]> s).

Fixpoint mapM {S A B} (f : A -> M S B) (l : list A) : M S (list B) :=
  match l with
  | [] => ret []
  | x :: l' => let* y := f x in let* ys := mapM f l' in ret (y :: ys)
  end.

Fixpoint result_mapM {A B} (f : A -> result B) (l : list A) : result (list B) :=
  match l with
  | [] => Ok []
  | x :: l' => let? y := f x in let? ys := result_mapM f l' in Ok (y :: ys)
  end.

Fixpoint result_foldl {A B} (f : A -> B -> result A) (a : A) (l : list B) : result A :=
  match l with
  | [] => Ok a
  | x :: l' => let? a' := f a x in result_foldl f a' l'
  end.

(** [a[i]] on an array, for an index that may be negative or past the end. *)
Definition index {A} (a : list A) (i : Z) : option A :=
  if 0 <=? i then a !! Z.to_nat i else None.

(** ** Data model *)

(** A record: field name to scalar. *)
Abbreviation record := (gmap string value) (only parsing).

(** [r[k]]: [undefined] for a missing field. *)
Definition get (r : record) (k : string) : value :=
  match r !! k with Some v => v | None => VUndef end.

(** One entry of [group.datasets]; [aggField] is attached by [groupBy].  The
    display properties (label, colours, type) are not read by the mixin and
    are left out. *)
Module Dataset.
Record t := mk { data : string; aggField : option string }.
End Dataset.

(** A grouping spec.  [modifier] and [modifierParams] are attached by
    [parseGroupByField], which may also overwrite [field]. *)
Module Group.
Record t := mk {
  field : option string;
  datasets : list Dataset.t;
  chart : option string;
  modifier : option string;
  modifierParams : option (list string)
}.
End Group.

Module Boxplot.
Record t := mk {
  max : jsnum;
  min : jsnum;
  median : option jsnum;
  q1 : option jsnum;
  q3 : option jsnum
}.
End Boxplot.

(** One entry of the array returned by [aggFunction]. *)
Inductive aggval :=
  | ANum (x : jsnum)
  | ABox (b : Boxplot.t).

(** A node of the tree, as the object literal of [groupBy] builds it.
    [group] and [groups] are references. *)
Module Node.
Record t (T : Type) := mk {
  name : value;
  chart : option string;
  y : list aggval;
  drilldown : T;
  group : loc;
  path : string;
  data : list record;
  groups : list loc;
  downloadObj : list string
}.
Arguments mk {T}.
Arguments name {T}.
Arguments chart {T}.
Arguments y {T}.
Arguments drilldown {T}.
Arguments group {T}.
Arguments path {T}.
Arguments data {T}.
Arguments groups {T}.
Arguments downloadObj {T}.
End Node.

(** What [groupBy] returns: the array [r] of nodes, or at the bottom of the
    recursion [Object.assign({}, data)], the object holding the records of
    [data] under their indices. *)
#[warnings="-register-all"]
Inductive tree :=
  | Leaf (data : list record)
  | Branch (r : list (Node.t tree)).

(** The call [me.export(exportStr, filename, fileType)], which hands the text
    to the browser. *)
Module ExportCall.
Record t := mk { exportStr : string; filename : string; fileType : string }.
End ExportCall.

Abbreviation store := (gmap loc Group.t) (only parsing).
Abbreviation heap := (gmap loc (list jsnum)) (only parsing).

(** ** The mixin *)

Section Mixin.

(** The host: its [Date.parse] ([None] for [NaN]) and the [downloadFields]
    property of the element the mixin is applied to. *)
Context (Date_parse : string -> option Z).
Context (downloadFields : list string).

(** [IN(list, val)] *)
Definition IN (list : list value) (val : value) : bool :=
  if negb (JS.indexOf_found list val) then false else true.

(** The time value of [new Date(val)], [None] for an invalid date. *)
Definition new_Date (val : value) : option Z :=
  match val with
  | VUndef => None
  | VNum n => JS.TimeClip n
  | VStr s => match Date_parse s with Some t => JS.TimeClip t | None => None end
  end.

(** [try { val = new Date(val).toISOString().slice(0, k); } catch (e) { }]:
    [toISOString] throws a [RangeError] on an invalid date, and the
    assignment is then skipped. *)
Definition date_slice (k : nat) (val : value) : value :=
  match new_Date val with
  | Some t => VStr (JS.slice0 k (JS.toISOString t))
  | None => val
  end.

(** [applyModifier(val, group)] *)
Definition applyModifier (val : value) (group : Group.t) : result value :=
  match Group.modifier group with
  | None => Ok val
  | Some modifier =>
      if JS.test_prefix "date_trunc" modifier then
        match Group.modifierParams group with
        | None => TypeError
        | Some modifierParams =>
            let truncType := JS.key_of (modifierParams !! 0%nat) in
            if JS.test_prefix "day" truncType then Ok (date_slice 10 val)
            else if JS.test_prefix "month" truncType then Ok (date_slice 7 val)
            else if JS.test_prefix "year" truncType then Ok (date_slice 4 val)
            else Ok val
        end
      else Ok val
  end.

(** [parseAggStr(str)]: [match[1]], which throws when [match] is [null]. *)
Definition parseAggStr (str : string) : result string :=
  match JS.match_parens str with
  | Some inner => Ok inner
  | None => TypeError
  end.

(** The properties [parseGroupByField] leaves on the group object. *)
Definition parse_field (group : Group.t) (str : option string) : Group.t :=
  if JS.test_prefix "date_trunc" (JS.key_of str) then
    match JS.match_parens (JS.key_of str) with
    | Some inner =>
        let modifierParams := JS.split_comma inner in
        {| Group.field := modifierParams !! 1%nat;
           Group.datasets := Group.datasets group;
           Group.chart := Group.chart group;
           Group.modifier := Some "date_trunc";
           Group.modifierParams := Some modifierParams |}
    | None => group
    end
  else group.

(** [parseGroupByField(group, str)]: updates the object in place and
    returns it. *)
Definition parseGroupByField (group : loc) (str : option string) : M store loc :=
  let* g := deref group in
  let* _ := assign group (parse_field g str) in
  ret group.

(** The first loop of [groupBy]:
    [group.datasets[i]['aggField'] = this.parseAggStr(group.datasets[i].data)]
    for each [i] in turn.  A throw at [i] leaves the entries before [i]
    updated. *)
Fixpoint parse_datasets (datasets : list Dataset.t) : result unit * list Dataset.t :=
  match datasets with
  | [] => (Ok tt, [])
  | d :: rest =>
      match parseAggStr (Dataset.data d) with
      | Ok f =>
          let '(r, rest') := parse_datasets rest in
          (r, {| Dataset.data := Dataset.data d; Dataset.aggField := Some f |} :: rest')
      | TypeError => (TypeError, datasets)
      end
  end.

Definition with_datasets (g : Group.t) (datasets : list Dataset.t) : Group.t :=
  {| Group.field := Group.field g;
     Group.datasets := datasets;
     Group.chart := Group.chart g;
     Group.modifier := Group.modifier g;
     Group.modifierParams := Group.modifierParams g |}.

Definition set_aggFields (group : loc) : M store unit :=
  let* g := deref group in
  let '(r, datasets) := parse_datasets (Group.datasets g) in
  let* _ := assign group (with_datasets g datasets) in
  lift r.

(** [applyModifier(record[group.field], group)], the value a record is
    grouped under. *)
Definition group_value (group : Group.t) (r : record) : result value :=
  applyModifier (get r (JS.key_of (Group.field group))) group.

(** [applyModifier(record[group.field], group) == name] *)
Definition matches (group : Group.t) (name : value) (r : record) : result bool :=
  let? v := group_value group r in Ok (JS.loose_eq v name).

(** ** Quantiles *)

(** [Array_Sort_Numbers(inputarray)]: sorts the array in place and returns
    it. *)
Definition Array_Sort_Numbers (inputarray : loc) : M heap loc :=
  let* a := deref inputarray in
  let* _ := assign inputarray (JS.sort JS.difference_compare a) in
  ret inputarray.

(** [Quartile(data, q)]; the result is [None] for [undefined]. *)
Definition Quartile (data : loc) (q : Qc) : M heap (option jsnum) :=
  let* data := Array_Sort_Numbers data in
  let* a := deref data in
  let pos := (Qc_of_Z (Z.of_nat (length a) - 1) * q)%Qc in
  let base := Qfloor pos in
  let rest := (pos - Qc_of_Z base)%Qc in
  match index a (base + 1) with
  | Some _ =>
      ret (Some (JS.add (JS.to_number (index a base))
                    (JS.mul (Num rest)
                       (JS.sub (JS.to_number (index a (base + 1)))
                               (JS.to_number (index a base))))))
  | None => ret (index a base)
  end.

Definition Quartile_25 (data : loc) : M heap (option jsnum) :=
  Quartile data (Q2Qc (1 # 4)).
Definition Quartile_50 (data : loc) : M heap (option jsnum) :=
  Quartile data (Q2Qc (1 # 2)).
Definition Quartile_75 (data : loc) : M heap (option jsnum) :=
  Quartile data (Q2Qc (3 # 4)).



(** ** Aggregates *)

(** The quartiles of the boxplot case.  [arrayOfValues] is a fresh array,
    here at location 0 of a heap of its own; the heap is returned with the
    three results. *)
Definition boxplot_quartiles (arrayOfValues : list jsnum)
  : result (option jsnum * option jsnum * option jsnum) * heap :=
  (let* q1 := Quartile_25 0%nat in
   let* median := Quartile_50 0%nat in
   let* q3 := Quartile_75 0%nat in
   ret (q1, median, q3)) {[ 0%nat := arrayOfValues ]}.

(** One turn of the loop of [aggFunction] over [group.datasets]: what it
    pushes on [returnArray], [None] when the function named by the dataset
    is unknown and nothing is pushed. *)
Definition aggregate (data : list record) (group : Group.t) (name : value)
    (dataset : Dataset.t) : result (option aggval) :=
  let str := Dataset.data dataset in
  let aggField := JS.key_of (Dataset.aggField dataset) in
  if JS.test_prefix "sum" str then
    let? returnNum := result_foldl (fun (returnNum : jsnum) (r : record) =>
        let? m := matches group name r in
        Ok (if m then JS.add (JS.parseInt (get r aggField)) returnNum
            else returnNum))
      (Num (Qc_of_Z 0)) data in
    Ok (Some (ANum returnNum))
  else if JS.test_prefix "max" str then
    let? returnNum := result_foldl (fun (returnNum : jsnum) (r : record) =>
        let? m := matches group name r in
        Ok (if m && JS.lt returnNum (JS.parseInt (get r aggField))
            then JS.parseInt (get r aggField) else returnNum))
      (Num (Qc_of_Z JS.MIN_SAFE_INTEGER)) data in
    Ok (Some (ANum returnNum))
  else if JS.test_prefix "min" str then
    let? returnNum := result_foldl (fun (returnNum : jsnum) (r : record) =>
        let? m := matches group name r in
        Ok (if m && JS.lt (JS.parseInt (get r aggField)) returnNum
            then JS.parseInt (get r aggField) else returnNum))
      (Num (Qc_of_Z JS.MAX_SAFE_INTEGER)) data in
    Ok (Some (ANum returnNum))
  else if JS.test_prefix "count" str then
    let? returnNum := result_foldl (fun (returnNum : jsnum) (r : record) =>
        let? m := matches group name r in
        Ok (if m then JS.add returnNum (Num (Qc_of_Z 1)) else returnNum))
      (Num (Qc_of_Z 0)) data in
    Ok (Some (ANum returnNum))
  else if JS.test_prefix "boxplot" str then
    let? '(bmin, bmax, arrayOfValues) := result_foldl (fun '((bmin, bmax, arrayOfValues) : jsnum * jsnum * list jsnum) (r : record) =>
        let? m1 := matches group name r in
        let bmin := if m1 && JS.lt (JS.parseInt (get r aggField)) bmin
                    then JS.parseInt (get r aggField) else bmin in
        let? m2 := matches group name r in
        let bmax := if m2 && JS.lt bmax (JS.parseInt (get r aggField))
                    then JS.parseInt (get r aggField) else bmax in
        let? m3 := matches group name r in
        Ok (bmin, bmax,
            if m3 then arrayOfValues ++ [JS.parseInt (get r aggField)]
            else arrayOfValues))
      (Num (Qc_of_Z JS.MAX_SAFE_INTEGER), Num (Qc_of_Z JS.MIN_SAFE_INTEGER), []) data in
    let? '(q1, median, q3) := (boxplot_quartiles arrayOfValues).1 in
    Ok (Some (ABox {| Boxplot.max := bmax; Boxplot.min := bmin;
                      Boxplot.median := median; Boxplot.q1 := q1;
                      Boxplot.q3 := q3 |}))
  else Ok None.

(** [aggFunction(me, data, group, name)] *)
Definition aggFunction (data : list record) (group : Group.t) (name : value)
  : result (list aggval) :=
  let? pushed := result_mapM (aggregate data group name) (Group.datasets group) in
  Ok (omap id pushed).

(** ** Paths *)

(** The loop of [pathAggFunction], from index [i] on, [path] being what
    has been built so far.  [data0] is [data[0]]. *)
Fixpoint path_loop (s : store) (data0 : option record) (groups : list loc)
    (group : Group.t) (path : string) : result string :=
  match groups with
  | [] => Ok path
  | gi :: rest =>
      match s !! gi with
      | None => TypeError
      | Some g =>
          if negb (bool_decide (Group.field g = Group.field group)) then
            match data0 with
            | None => TypeError
            | Some r =>
                let? v := group_value g r in
                path_loop s data0 rest group (path +:+ JS.ToString v +:+ " > ")
            end
          else
            match data0 with
            | None => TypeError
            | Some r => let? v := group_value g r in Ok (path +:+ JS.ToString v)
            end
      end
  end.

(** [pathAggFunction(me, data, groups, group, name)], reading the objects
    in the store [s]. *)
Definition pathAggFunction (s : store) (data : list record) (groups : list loc)
    (group : loc) (name : value) : result string :=
  match groups with
  | [] => Ok EmptyString
  | _ :: _ =>
      match s !! group with
      | None => TypeError
      | Some g => path_loop s (data !! 0%nat) groups g EmptyString
      end
  end.

(** ** Downloads *)

(** The [title] property of the element the mixin is applied to. *)
Context (title : value).

Definition LF : string := String "010"%char EmptyString.
Definition DQ : string := String "034"%char EmptyString.

(** [downloadDataToCsv(series, downloadObj, data)].  Of [series] the
    function reads and writes the property [path], [None] when it is
    [undefined]; the result is the call to [export] it ends with, and the
    [path] it leaves in [series]. *)
Definition downloadDataToCsv (path : option string) (downloadObj : list string)
    (data : list record) : ExportCall.t * option string :=
  let exportStr := EmptyString in
  let exportStr := exportStr +:+ JS.ToString title in
  let exportStr := exportStr +:+ LF +:+ LF in
  let '(exportStr, path) :=
    match path with
    | Some path =>
        let exportStr := exportStr +:+ "Local Filter:" +:+ LF in
        let path := JS.replace_commas path in
        let exportStr :=
          if JS.lt (Num (Qc_of_Z 0)) (JS.parseInt (VStr path))
          then exportStr +:+ "=" +:+ DQ +:+ path +:+ DQ +:+ ","
          else exportStr +:+ DQ +:+ path +:+ DQ +:+ "," in
        (exportStr +:+ LF +:+ LF +:+ LF, Some path)
    | None => (exportStr, None)
    end in
  let exportStr :=
    fold_left (fun exportStr item => exportStr +:+ DQ +:+ item +:+ DQ +:+ ",")
      downloadObj exportStr in
  let exportStr := exportStr +:+ LF in
  let exportStr :=
    fold_left (fun exportStr r =>
        fold_left (fun exportStr field =>
            exportStr +:+ DQ +:+ JS.ToString (get r field) +:+ DQ +:+ ",")
          downloadObj exportStr +:+ LF)
      data exportStr in
  ({| ExportCall.exportStr := exportStr;
      ExportCall.filename := "ez_download.csv";
      ExportCall.fileType := "text/csv;charset=utf-8;" |}, path).

(** ** The tree builder *)

Section GroupBy.

(** The two strategies, which default to [aggFunction] and
    [pathAggFunction].  They read their arguments and write nothing. *)
Context (aggFunc : list record -> Group.t -> value -> result (list aggval)).
Context (pathAggFunc : store -> list record -> list loc -> loc -> value -> result string).

(** The second loop: the distinct values, in order of first occurrence. *)
Definition unique_names (data : list record) (group : Group.t) : result (list value) :=
  result_foldl (fun (names : list value) (r : record) =>
      let? v := group_value group r in
      Ok (if negb (IN names v) then names ++ [v] else names))
    [] data.

(** The inner loop: the records of [data] that go to [f]. *)
Fixpoint bucket (data : list record) (group : Group.t) (name : value)
  : result (list record) :=
  match data with
  | [] => Ok []
  | r :: data' =>
      let? m := matches group name r in
      let? f := bucket data' group name in
      Ok (if m then r :: f else f)
  end.

(** The body of the loop over [names]: the node pushed on [r] for
    [name].  [recurse f] stands for the recursive call
    [this.groupBy(f, groups.slice(1, groups.length), fullGroupBy, aggFunc, pathAggFunc)].
    The properties of the object literal are evaluated in order, the
    group object being read where the source reads it. *)
Definition node_for (recurse : list record -> M store tree) (data : list record)
    (group : loc) (fullGroupBy : list loc) (name : value) : M store (Node.t tree) :=
  let* g := deref group in
  let* f := lift (bucket data g name) in
  let* y := lift (aggFunc f g name) in
  let* drilldown := recurse f in
  let* path := (fun s => (pathAggFunc s f fullGroupBy group name, s)) in
  ret {| Node.name := name;
         Node.chart := Group.chart g;
         Node.y := y;
         Node.drilldown := drilldown;
         Node.group := group;
         Node.path := path;
         Node.data := f;
         Node.groups := fullGroupBy;
         Node.downloadObj := downloadFields |}.

(** [groupBy(data, groups, fullGroupBy, aggFunc, pathAggFunc)] *)
Fixpoint groupBy (data : list record) (groups : list loc) (fullGroupBy : list loc)
  : M store tree :=
  match groups with
  | [] => ret (Leaf data)
  | group :: rest =>
      let* _ := set_aggFields group in
      let* g := deref group in
      let* group := parseGroupByField group (Group.field g) in
      let* g := deref group in
      let* names := lift (unique_names data g) in
      let names := JS.sort JS.default_compare names in
      let* r := mapM (node_for (fun f => groupBy f rest fullGroupBy)
                        data group fullGroupBy) names in
      ret (Branch r)
  end.

End GroupBy.

End Mixin.

Arguments groupBy Date_parse downloadFields aggFunc pathAggFunc data groups fullGroupBy : simpl nomatch.

(** The mixin on the sample host, with the default strategies. *)
Definition sample_groupBy : list record -> list loc -> list loc -> M store tree :=
  groupBy JS.iso_Date_parse [] (aggFunction JS.iso_Date_parse)
    (pathAggFunction JS.iso_Date_parse).

(** A record written as the list of its fields. *)
Definition record_of (fields : list (string * value)) : record := list_to_map fields.

(** * Properties *)

(** ** Sequencing *)

Lemma bind_Ok {S A B} (m : M S A) (f : A -> M S B) s a s1 :
  m s = (Ok a, s1) -> bind m f s = f a s1.
Proof. intros H. unfold bind. now rewrite H. Qed.

Lemma bind_TypeError {S A B} (m : M S A) (f : A -> M S B) s s1 :
  m s = (TypeError, s1) -> bind m f s = (TypeError, s1).
Proof. intros H. unfold bind. now rewrite H. Qed.

Lemma bind_Ok_inv {S A B} (m : M S A) (f : A -> M S B) s b s' :
  bind m f s = (Ok b, s') -> exists a s1, m s = (Ok a, s1) /\ f a s1 = (Ok b, s').
Proof.
  unfold bind. destruct (m s) as [[a|] s1]; intros H; [eauto | discriminate].
Qed.

Lemma result_bind_Ok_inv {A B} (m : result A) (f : A -> result B) b :
  result_bind m f = Ok b -> exists a, m = Ok a /\ f a = Ok b.
Proof. destruct m as [a|]; simpl; intros H; [eauto | discriminate]. Qed.

(** What [mapM] returns, element by element. *)
Lemma mapM_Ok_inv {S A B} (f : A -> M S B) l s ys s' :
  mapM f l s = (Ok ys, s') ->
  Forall2 (fun x y => exists s1 s2, f x s1 = (Ok y, s2)) l ys.
Proof.
  revert s ys. induction l as [|x l IH]; intros s ys H; simpl in H.
  - inversion H; subst. constructor.
  - apply bind_Ok_inv in H as (y & s1 & Hy & H).
    apply bind_Ok_inv in H as (ys' & s2 & Hys & H).
    inversion H; subst. constructor; eauto.
Qed.


Lemma lift_Ok_inv {S A} (r : result A) (s s' : S) a :
  lift r s = (Ok a, s') -> r = Ok a /\ s' = s.
Proof. unfold lift. intros H. now inversion H. Qed.

(** ** The leaves of the tree *)

Section Leaves.

Context (Date_parse : string -> option Z) (downloadFields : list string).
Context (aggFunc : list record -> Group.t -> value -> result (list aggval)).
Context (pathAggFunc : store -> list record -> list loc -> loc -> value -> result string).

Local Abbreviation groupBy' := (groupBy Date_parse downloadFields aggFunc pathAggFunc).

(** [bucket] keeps, in order, the records whose value is loosely equal to
    [name]. *)
Lemma bucket_filter data g name f :
  bucket Date_parse data g name = Ok f ->
  f = filter (fun r => matches Date_parse g name r = Ok true) data.
Proof.
  revert f. induction data as [|r data IH]; intros f H; simpl in H.
  - now inversion H.
  - apply result_bind_Ok_inv in H as (m & Hm & H).
    apply result_bind_Ok_inv in H as (f' & Hf & H).
    inversion H; subst; clear H. rewrite (IH f' Hf) at 1.
    rewrite filter_cons. destruct m.
    + rewrite decide_True by done. now rewrite <- (IH f' Hf).
    + rewrite decide_False by (rewrite Hm; discriminate). now rewrite <- (IH f' Hf).
Qed.


Lemma node_for_inv recurse data group full name s n s' :
  node_for Date_parse downloadFields aggFunc pathAggFunc recurse data group full name s = (Ok n, s') ->
  exists g s1 s2,
    bucket Date_parse data g name = Ok (Node.data n)
    /\ s !! group = Some g
    /\ aggFunc (Node.data n) g name = Ok (Node.y n)
    /\ recurse (Node.data n) s1 = (Ok (Node.drilldown n), s2)
    /\ s1 = s /\ s' = s2
    /\ pathAggFunc s2 (Node.data n) full group name = Ok (Node.path n)
    /\ Node.name n = name /\ Node.group n = group /\ Node.groups n = full
    /\ Node.chart n = Group.chart g /\ Node.downloadObj n = downloadFields.
Proof.
  unfold node_for. intros H.
  apply bind_Ok_inv in H as (g & s1 & Hg & H).
  unfold deref in Hg. destruct (s !! group) as [g'|] eqn:Hs; [|discriminate].
  inversion Hg; subst; clear Hg.
  apply bind_Ok_inv in H as (f & s2 & Hf & H). apply lift_Ok_inv in Hf as [Hf ->].
  apply bind_Ok_inv in H as (y & s3 & Hy & H). apply lift_Ok_inv in Hy as [Hy ->].
  apply bind_Ok_inv in H as (d & s4 & Hd & H).
  apply bind_Ok_inv in H as (p & s5 & Hp & H).
  inversion Hp; subst; clear Hp. inversion H; subst; clear H. simpl.
  exists g, s1, s'. repeat split; auto.
Qed.


End Leaves.

(** ** One level of [groupBy] *)

Section Level.

Context (Date_parse : string -> option Z) (downloadFields : list string).
Context (aggFunc : list record -> Group.t -> value -> result (list aggval)).
Context (pathAggFunc : store -> list record -> list loc -> loc -> value -> result string).

Local Abbreviation groupBy' := (groupBy Date_parse downloadFields aggFunc pathAggFunc).
Local Abbreviation node_for' := (node_for Date_parse downloadFields aggFunc pathAggFunc).

(** The state in which the two parsing steps leave a group object when
    neither throws. *)
Definition parsed (g : Group.t) : Group.t :=
  let g1 := with_datasets g (parse_datasets (Group.datasets g)).2 in
  parse_field g1 (Group.field g1).

(** [groupBy] on a non-empty list of specs, step by step. *)
Lemma groupBy_cons data group rest full (s : store) g :
  s !! group = Some g ->
  groupBy' data (group :: rest) full s =
    match (parse_datasets (Group.datasets g)).1 with
    | TypeError =>
        (TypeError, <[group := with_datasets g (parse_datasets (Group.datasets g)).2]> s)
    | Ok _ =>
        let s1 := <[group := parsed g]> s in
        match unique_names Date_parse data (parsed g) with
        | TypeError => (TypeError, s1)
        | Ok names =>
            bind (mapM (node_for' (fun f => groupBy' f rest full) data group full)
                    (JS.sort JS.default_compare names))
                 (fun r => ret (Branch r)) s1
        end
    end.
Proof.
  intros Hg. unfold parsed. simpl.
  unfold set_aggFields, parseGroupByField, bind, deref, assign, lift, ret. rewrite Hg.
  destruct (parse_datasets (Group.datasets g)) as [[[]|] ds]; simpl; [|reflexivity].
  rewrite !lookup_insert_eq, insert_insert_eq.
  destruct (unique_names _ _ _); reflexivity.
Qed.

Lemma parse_datasets_Ok datasets :
  Forall (fun d => JS.match_parens (Dataset.data d) <> None) datasets ->
  (parse_datasets datasets).1 = Ok tt.
Proof.
  induction 1 as [|d ds Hd _ IH]; [reflexivity|]. simpl. unfold parseAggStr.
  destruct (JS.match_parens (Dataset.data d)); [|done].
  destruct (parse_datasets ds) as [r ds']. exact IH.
Qed.

(** C9, as the code has it.  On an empty record collection [groupBy]
    returns the empty array of nodes, provided the first spec exists and
    each of its series descriptors is matched by the parenthesis pattern;
    the first spec is parsed in place all the same. *)
Theorem groupBy_no_records group rest full (s : store) g :
  s !! group = Some g ->
  Forall (fun d => JS.match_parens (Dataset.data d) <> None) (Group.datasets g) ->
  groupBy' [] (group :: rest) full s = (Ok (Branch []), <[group := parsed g]> s).
Proof.
  intros Hg Hds. rewrite (groupBy_cons _ _ _ _ _ _ Hg).
  rewrite (parse_datasets_Ok _ Hds). reflexivity.
Qed.

End Level.

(** *** Examples *)

(** The records and the spec of the sum example: grouping on [g], with the
    series [sum(v)]. *)
Definition abc_records : list record :=
  [ record_of [("g", VStr "A"); ("v", VStr "10")];
    record_of [("g", VStr "A"); ("v", VStr "5")];
    record_of [("g", VStr "B"); ("v", VStr "3")] ].

Definition by_g (series : list string) : Group.t :=
  {| Group.field := Some "g";
     Group.datasets := map (fun d => Dataset.mk d None) series;
     Group.chart := None;
     Group.modifier := None;
     Group.modifierParams := None |}.


Lemma groupBy_no_records_witness :
  sample_groupBy [] [0%nat] [0%nat] {[ 0%nat := by_g ["sum(v)"] ]}
  = (Ok (Branch []), <[ 0%nat := parsed (by_g ["sum(v)"]) ]> {[ 0%nat := by_g ["sum(v)"] ]}).
Proof.
  apply groupBy_no_records.
  - reflexivity.
  - repeat constructor; vm_compute; discriminate.
Defined.

(** C9 as stated fails when a series descriptor of the first spec has no
    parentheses: the call throws, records or no records. *)
Lemma groupBy_no_records_throws :
  (sample_groupBy [] [0%nat] [0%nat] {[ 0%nat := by_g ["sum"] ]}).1 = TypeError.
Proof. vm_compute. reflexivity. Qed.

(** ** The series descriptors *)

(** Whether every character of [s] satisfies [p]. *)
Fixpoint string_forallb (p : ascii -> bool) (s : string) : bool :=
  match s with
  | EmptyString => true
  | String c s' => p c && string_forallb p s'
  end.

(** [s] has no occurrence of the character [c]. *)
Definition lacks (c : ascii) (s : string) : Prop :=
  string_forallb (fun c' => negb (Ascii.eqb c' c)) s = true.

(** [s] has no line terminator. *)
Definition one_line (s : string) : Prop :=
  string_forallb (fun c => negb (JS.is_line_terminator c)) s = true.

Lemma lacks_cons c c' s : lacks c (String c' s) <-> Ascii.eqb c' c = false /\ lacks c s.
Proof.
  unfold lacks. simpl. rewrite andb_true_iff, negb_true_iff. reflexivity.
Qed.


Lemma line_prefix_lacks c s : lacks c s -> lacks c (JS.line_prefix s).
Proof.
  induction s as [|c' s IH]; [done|].
  intros [Hc Hs]%lacks_cons. simpl.
  destruct (JS.is_line_terminator c'); [done|]. apply lacks_cons. auto.
Qed.

Lemma before_last_close_lacks s : lacks ")" s -> JS.before_last_close s = None.
Proof.
  induction s as [|c s IH]; [reflexivity|].
  intros [Hc Hs]%lacks_cons. simpl. now rewrite (IH Hs), Hc.
Qed.


Lemma match_parens_skip pre s :
  lacks "(" pre -> JS.match_parens (pre +:+ s) = JS.match_parens s.
Proof.
  induction pre as [|c pre IH]; [reflexivity|].
  intros [Hc Hs]%lacks_cons. simpl. rewrite Hc. auto.
Qed.

Lemma line_prefix_app inner s :
  one_line inner -> JS.line_prefix (inner +:+ s) = inner +:+ JS.line_prefix s.
Proof.
  unfold one_line. induction inner as [|c inner IH]; [reflexivity|].
  simpl. intros [Hc Hs]%andb_true_iff. apply negb_true_iff in Hc.
  rewrite Hc, (IH Hs). reflexivity.
Qed.

Lemma before_last_close_app inner s :
  lacks ")" s -> JS.before_last_close (inner +:+ String ")" s) = Some inner.
Proof.
  intros Hs. induction inner as [|c inner IH]; simpl.
  - now rewrite (before_last_close_lacks _ Hs).
  - now rewrite IH.
Qed.

(** The text between the first opening parenthesis and the last closing
    parenthesis of its line. *)
Lemma parseAggStr_greedy pre inner post :
  lacks "(" pre -> one_line inner -> lacks ")" post ->
  parseAggStr (pre +:+ String "(" (inner +:+ String ")" post)) = Ok inner.
Proof.
  intros Hpre Hinner Hpost. unfold parseAggStr.
  rewrite (match_parens_skip _ _ Hpre). simpl.
  rewrite (line_prefix_app _ _ Hinner). simpl.
  destruct (JS.is_line_terminator ")") eqn:E; [discriminate E|].
  now rewrite (before_last_close_app _ _ (line_prefix_lacks _ _ Hpost)).
Qed.


(** ** Sorting *)

Section SortFacts.

Context {A : Type} (cmp : A -> A -> comparison).

(** [x] may stand before [y]. *)
Definition before (x y : A) : Prop := cmp x y <> Gt.

Lemma sort_insert_Permutation x l : JS.sort_insert cmp x l ≡ₚ x :: l.
Proof.
  induction l as [|y l IH]; simpl; [done|].
  destruct (cmp x y); try done.
  rewrite IH. apply Permutation_swap.
Qed.

Lemma sort_Permutation l : JS.sort cmp l ≡ₚ l.
Proof.
  induction l as [|x l IH]; simpl; [done|].
  now rewrite sort_insert_Permutation, IH.
Qed.

Hypothesis cmp_total : forall x y, cmp x y = Gt -> cmp y x <> Gt.

Lemma sort_insert_HdRel x y l :
  before y x -> HdRel before y l -> HdRel before y (JS.sort_insert cmp x l).
Proof.
  intros Hyx Hl. destruct l as [|z l]; simpl; [now constructor|].
  destruct (cmp x z); constructor; auto; now inversion Hl.
Qed.

Lemma sort_insert_Sorted x l :
  Sorted before l -> Sorted before (JS.sort_insert cmp x l).
Proof.
  induction 1 as [|y l Hl IH Hy]; simpl; [repeat constructor|].
  destruct (cmp x y) eqn:E.
  - repeat constructor; auto. unfold before. now rewrite E.
  - repeat constructor; auto. unfold before. now rewrite E.
  - constructor; [exact IH|]. apply sort_insert_HdRel; auto.
    now apply cmp_total.
Qed.

Lemma sort_Sorted l : Sorted before (JS.sort cmp l).
Proof.
  induction l as [|x l IH]; simpl; [constructor|]. now apply sort_insert_Sorted.
Qed.

End SortFacts.

(** ** The order of [sort()] without a comparator *)

Lemma ascii_compare_N a b : Ascii.compare a b = N.compare (N_of_ascii a) (N_of_ascii b).
Proof. reflexivity. Qed.

Lemma string_compare_trans a b c :
  String.compare a b <> Gt -> String.compare b c <> Gt -> String.compare a c <> Gt.
Proof.
  revert b c. induction a as [|x a IH]; intros [|y b] [|z c]; simpl; try done.
  rewrite !ascii_compare_N.
  destruct (N.compare_spec (N_of_ascii x) (N_of_ascii y)) as [Hxy|Hxy|Hxy];
    destruct (N.compare_spec (N_of_ascii y) (N_of_ascii z)) as [Hyz|Hyz|Hyz];
    try done; intros H1 H2.
  - rewrite Hxy, Hyz, N.compare_refl. eauto.
  - rewrite Hxy. now apply N.compare_lt_iff in Hyz as ->.
  - rewrite <- Hyz. now apply N.compare_lt_iff in Hxy as ->.
  - assert (N_of_ascii x < N_of_ascii z)%N as ->%N.compare_lt_iff by lia. done.
Qed.

Lemma default_compare_total x y :
  JS.default_compare x y = Gt -> JS.default_compare y x <> Gt.
Proof.
  destruct x, y; simpl; try done; rewrite String.compare_antisym;
    destruct (String.compare _ _); done.
Qed.

Global Instance default_compare_trans : Transitive (before JS.default_compare).
Proof.
  unfold before. intros x y z.
  destruct x, y, z; simpl; try done; apply string_compare_trans.
Qed.

(** ** The distinct values of a level *)

Section Names.

Context (Date_parse : string -> option Z).

Lemma IN_elem_of names v : IN names v = true <-> v ∈ names.
Proof.
  assert (JS.indexOf_found names v = true <-> v ∈ names) as Hfound.
  { unfold JS.indexOf_found, JS.strict_eq. rewrite existsb_exists. split.
    - intros (x & Hx%list_elem_of_In & ->%bool_decide_eq_true). exact Hx.
    - intros Hv. exists v. split; [now apply list_elem_of_In | now apply bool_decide_eq_true]. }
  unfold IN. rewrite <- Hfound. now destruct (JS.indexOf_found names v).
Qed.

Lemma unique_names_acc data g acc names :
  result_foldl (fun (names : list value) (r : record) =>
      let? v := group_value Date_parse g r in
      Ok (if negb (IN names v) then names ++ [v] else names)) acc data = Ok names ->
  NoDup acc ->
  NoDup names
  /\ (forall v, v ∈ names <-> v ∈ acc \/ exists r, r ∈ data /\ group_value Date_parse g r = Ok v)
  /\ Forall (fun r => exists v, group_value Date_parse g r = Ok v) data.
Proof.
  revert acc. induction data as [|r data IH]; intros acc H Hacc; simpl in H.
  - inversion H; subst. split; [done|]. split; [|constructor].
    intros v. split; [auto|]. intros [?|(r & Hr & _)]; [done|]. now apply elem_of_nil in Hr.
  - apply result_bind_Ok_inv in H as (acc' & Hacc' & H).
    apply result_bind_Ok_inv in Hacc' as (v & Hv & Hacc').
    inversion Hacc'; subst; clear Hacc'.
    apply IH in H as (Hnd & Hin & Hall).
    + split; [done|]. split; [|constructor; eauto].
      intros w. rewrite Hin. clear Hin IH. split.
      * intros [Hw|(r' & Hr' & Hw)].
        -- destruct (IN acc v) eqn:E; simpl in Hw; [auto|].
           apply elem_of_app in Hw as [Hw|Hw%list_elem_of_singleton]; [auto|].
           subst. right. exists r. split; [left|done].
        -- right. exists r'. split; [now right|done].
      * intros [Hw|(r' & Hr' & Hw)].
        -- left. destruct (IN acc v); simpl; [done|]. apply elem_of_app. auto.
        -- apply elem_of_cons in Hr' as [->|Hr'].
           ++ left. rewrite Hv in Hw. inversion Hw; subst.
              destruct (IN acc w) eqn:E; simpl.
              ** now apply IN_elem_of.
              ** apply elem_of_app. right. now left.
           ++ right. eauto.
    + destruct (IN acc v) eqn:E; simpl; [done|].
      apply list.NoDup_app. split; [done|]. split; [|apply list.NoDup_singleton].
      intros x Hx ->%list_elem_of_singleton. apply IN_elem_of in Hx. congruence.
Qed.

(** The values collected by the first loop: each value taken by a record,
    once. *)
Lemma unique_names_spec data g names :
  unique_names Date_parse data g = Ok names ->
  NoDup names
  /\ (forall v, v ∈ names <-> exists r, r ∈ data /\ group_value Date_parse g r = Ok v)
  /\ Forall (fun r => exists v, group_value Date_parse g r = Ok v) data.
Proof.
  intros H. apply unique_names_acc in H as (Hnd & Hin & Hall); [|constructor].
  split; [done|]. split; [|done]. intros v. rewrite Hin. split; [|auto].
  intros [H|H]; [now apply elem_of_nil in H | done].
Qed.

End Names.

(** ** The nodes of a level *)

Section Siblings.

Context (Date_parse : string -> option Z) (downloadFields : list string).
Context (aggFunc : list record -> Group.t -> value -> result (list aggval)).
Context (pathAggFunc : store -> list record -> list loc -> loc -> value -> result string).

Local Abbreviation groupBy' := (groupBy Date_parse downloadFields aggFunc pathAggFunc).
Local Abbreviation node_for' := (node_for Date_parse downloadFields aggFunc pathAggFunc).

(** What a successful call on a non-empty list of specs went through. *)
Lemma groupBy_cons_Ok_inv data group rest full (s : store) g t s' :
  s !! group = Some g ->
  groupBy' data (group :: rest) full s = (Ok t, s') ->
  exists names r,
    unique_names Date_parse data (parsed g) = Ok names
    /\ mapM (node_for' (fun f => groupBy' f rest full) data group full)
         (JS.sort JS.default_compare names) (<[group := parsed g]> s) = (Ok r, s')
    /\ t = Branch r.
Proof.
  intros Hg H. rewrite (groupBy_cons _ _ _ _ _ _ _ _ _ _ Hg) in H.
  destruct (parse_datasets (Group.datasets g)).1; [|discriminate].
  simpl in H. destruct (unique_names _ _ _) as [names|]; [|discriminate].
  apply bind_Ok_inv in H as (r & s1 & Hr & H). inversion H; subst.
  exists names, r. auto.
Qed.

Lemma mapM_node_names recurse data group full names (s : store) r s' :
  mapM (node_for' recurse data group full) names s = (Ok r, s') ->
  map Node.name r = names.
Proof.
  intros H%mapM_Ok_inv. induction H as [|name n names r (s1 & s2 & Hn) _ IH]; [done|].
  apply node_for_inv in Hn as (g & _ & _ & _ & _ & _ & _ & _ & _ & _ & Hname & _).
  simpl. now rewrite Hname, IH.
Qed.

(** C2, as the code has it.  The names of the nodes of one level are the
    values taken by the records under the parsed spec, each once, in the order
    of [sort()] without a comparator: ascending by the code units of their
    string forms, numbers included, with [undefined] last. *)
Theorem groupBy_names_sorted data group rest full (s : store) g r s' :
  s !! group = Some g ->
  groupBy' data (group :: rest) full s = (Ok (Branch r), s') ->
  NoDup (map Node.name r)
  /\ StronglySorted (fun x y => JS.default_compare x y <> Gt) (map Node.name r)
  /\ (forall v, v ∈ map Node.name r <->
        exists rec, rec ∈ data /\ group_value Date_parse (parsed g) rec = Ok v).
Proof.
  intros Hg H.
  apply (groupBy_cons_Ok_inv _ _ _ _ _ _ _ _ Hg) in H as (names & r' & Hnames & Hr & [= <-]).
  apply mapM_node_names in Hr. rewrite Hr.
  apply unique_names_spec in Hnames as (Hnd & Hin & _).
  pose proof (sort_Permutation JS.default_compare names) as Hperm.
  split; [now rewrite Hperm|]. split.
  - apply (Sorted_StronglySorted (before JS.default_compare)).
    apply sort_Sorted, default_compare_total.
  - intros v. now rewrite Hperm.
Qed.

End Siblings.

(** *** Examples *)

Definition keyed (values : list value) : list record :=
  map (fun v => record_of [("g", v)]) values.

Lemma groupBy_names_sorted_witness :
  exists r s',
    sample_groupBy (keyed [VStr "b"; VStr "a"; VStr "a"; VStr "c"]) [0%nat] [0%nat]
      {[ 0%nat := by_g [] ]} = (Ok (Branch r), s')
    /\ map Node.name r = [VStr "a"; VStr "b"; VStr "c"]
    /\ (NoDup (map Node.name r)
        /\ StronglySorted (fun x y => JS.default_compare x y <> Gt) (map Node.name r)
        /\ (forall v, v ∈ map Node.name r <->
              exists rec, rec ∈ keyed [VStr "b"; VStr "a"; VStr "a"; VStr "c"]
                          /\ group_value JS.iso_Date_parse (parsed (by_g [])) rec = Ok v)).
Proof.
  eexists _, _. split; [vm_compute; reflexivity|]. split; [reflexivity|].
  eapply groupBy_names_sorted
    with (s := {[ 0%nat := by_g [] ]}) (group := 0%nat) (rest := []) (full := [0%nat])
         (downloadFields := []) (aggFunc := aggFunction JS.iso_Date_parse)
         (pathAggFunc := pathAggFunction JS.iso_Date_parse).
  - vm_compute; reflexivity.
  - vm_compute; reflexivity.
Defined.

(** C2 as stated fails on numbers: 9 and 10 come out as 10, 9. *)
Lemma groupBy_names_numbers_not_numeric :
  exists r s',
    sample_groupBy (keyed [VNum 9; VNum 10]) [0%nat] [0%nat] {[ 0%nat := by_g [] ]}
    = (Ok (Branch r), s')
    /\ map Node.name r = [VNum 10; VNum 9].
Proof. eexists _, _. split; [vm_compute; reflexivity | reflexivity]. Qed.

(** ** What [groupBy] writes *)

(** The state in which one level of [groupBy] leaves the spec it parses:
    [parsed] when the series descriptors all parse, and otherwise the spec
    with the [aggField] of the descriptors that come before the offending
    one. *)
Definition parse_step (g : Group.t) : Group.t :=
  match (parse_datasets (Group.datasets g)).1 with
  | Ok _ => parsed g
  | TypeError => with_datasets g (parse_datasets (Group.datasets g)).2
  end.

(** From [s] to [s'], objects were only parsed, and only those of [locs]. *)
Definition evolves (locs : list loc) (s s' : store) : Prop :=
  forall l, exists k, s' !! l = Nat.iter k parse_step <$> s !! l /\ (l ∉ locs -> k = 0%nat).

Lemma evolves_refl locs s : evolves locs s s.
Proof. intros l. exists 0%nat. split; [|done]. simpl. now destruct (s !! l). Qed.

Lemma evolves_trans locs s1 s2 s3 :
  evolves locs s1 s2 -> evolves locs s2 s3 -> evolves locs s1 s3.
Proof.
  intros H12 H23 l. destruct (H12 l) as (k1 & E1 & F1), (H23 l) as (k2 & E2 & F2).
  exists (k2 + k1)%nat. split.
  - rewrite E2, E1. destruct (s1 !! l); simpl; [|done]. now rewrite Nat.iter_add.
  - intros Hl. now rewrite (F1 Hl), (F2 Hl).
Qed.

Lemma evolves_weaken locs locs' s s' :
  (forall l, l ∈ locs -> l ∈ locs') -> evolves locs s s' -> evolves locs' s s'.
Proof.
  intros Hsub H l. destruct (H l) as (k & E & F). exists k. split; [done|].
  intros Hl. apply F. intros Hl'. apply Hl. auto.
Qed.

Lemma evolves_insert locs (s : store) group g :
  s !! group = Some g -> group ∈ locs -> evolves locs s (<[group := parse_step g]> s).
Proof.
  intros Hg Hin l. destruct (decide (l = group)) as [->|Hne].
  - exists 1%nat. rewrite lookup_insert_eq, Hg. split; [done|]. intros []. exact Hin.
  - exists 0%nat. rewrite lookup_insert_ne by done. split; [|done]. now destruct (s !! l).
Qed.

Section Effects.

Context {S : Type} (P : S -> S -> Prop).
Hypothesis P_refl : forall s, P s s.
Hypothesis P_trans : forall s1 s2 s3, P s1 s2 -> P s2 s3 -> P s1 s3.

Definition effect {A} (m : M S A) : Prop := forall s r s', m s = (r, s') -> P s s'.

Lemma effect_ret {A} (a : A) : effect (ret a).
Proof. intros s r s' H. inversion H; subst. apply P_refl. Qed.

Lemma effect_lift {A} (x : result A) : effect (lift x).
Proof. intros s r s' H. inversion H; subst. apply P_refl. Qed.

Lemma effect_bind {A B} (m : M S A) (f : A -> M S B) :
  effect m -> (forall a, effect (f a)) -> effect (bind m f).
Proof.
  intros Hm Hf s r s' H. unfold bind in H.
  destruct (m s) as [[a|] s1] eqn:E.
  - eapply P_trans; [eapply Hm, E | eapply Hf, H].
  - inversion H; subst. eapply Hm, E.
Qed.

Lemma effect_mapM {A B} (f : A -> M S B) l :
  (forall x, effect (f x)) -> effect (mapM f l).
Proof.
  intros Hf. induction l as [|x l IH]; simpl.
  - apply effect_ret.
  - apply effect_bind; [apply Hf|]. intros y.
    apply effect_bind; [apply IH|]. intros ys. apply effect_ret.
Qed.

End Effects.

Section Store.

Context (Date_parse : string -> option Z) (downloadFields : list string).
Context (aggFunc : list record -> Group.t -> value -> result (list aggval)).
Context (pathAggFunc : store -> list record -> list loc -> loc -> value -> result string).

Local Abbreviation groupBy' := (groupBy Date_parse downloadFields aggFunc pathAggFunc).
Local Abbreviation node_for' := (node_for Date_parse downloadFields aggFunc pathAggFunc).

Lemma groupBy_cons_None data group rest full (s : store) :
  s !! group = None -> groupBy' data (group :: rest) full s = (TypeError, s).
Proof.
  intros Hg. simpl. unfold set_aggFields, bind, deref. now rewrite Hg.
Qed.

(** [groupBy] on a non-empty list of specs, after its parsing steps. *)
Lemma groupBy_cons_step data group rest full (s : store) g :
  s !! group = Some g ->
  groupBy' data (group :: rest) full s =
    let s1 := <[group := parse_step g]> s in
    match (parse_datasets (Group.datasets g)).1 with
    | TypeError => (TypeError, s1)
    | Ok _ =>
        match unique_names Date_parse data (parsed g) with
        | TypeError => (TypeError, s1)
        | Ok names =>
            bind (mapM (node_for' (fun f => groupBy' f rest full) data group full)
                    (JS.sort JS.default_compare names))
                 (fun r => ret (Branch r)) s1
        end
    end.
Proof.
  intros Hg. rewrite (groupBy_cons _ _ _ _ _ _ _ _ _ _ Hg).
  unfold parse_step. now destruct (parse_datasets (Group.datasets g)).1.
Qed.

Lemma node_for_effect P recurse data group full name :
  (forall s, P s s) -> (forall s1 s2 s3, P s1 s2 -> P s2 s3 -> P s1 s3) ->
  (forall f, effect P (recurse f)) ->
  effect P (node_for' recurse data group full name).
Proof.
  intros Hrefl Htrans Hrec. unfold node_for.
  apply effect_bind; [done| |].
  { intros s r s' H. unfold deref in H. destruct (s !! group); inversion H; subst; apply Hrefl. }
  intros g. apply effect_bind; [done|now apply effect_lift|]. intros f.
  apply effect_bind; [done|now apply effect_lift|]. intros y.
  apply effect_bind; [done|apply Hrec|]. intros d.
  apply effect_bind; [done| |].
  { intros s r s' H. inversion H; subst. apply Hrefl. }
  intros p. now apply effect_ret.
Qed.

(** Whatever its outcome, a call only parses the specs it is given. *)
Lemma groupBy_evolves data groups full : effect (evolves groups) (groupBy' data groups full).
Proof.
  revert data. induction groups as [|group rest IH]; intros data s res s' H.
  - inversion H; subst. apply evolves_refl.
  - destruct (s !! group) as [g|] eqn:Hg.
    + rewrite (groupBy_cons_step _ _ _ _ _ _ Hg) in H. simpl in H.
      assert (evolves (group :: rest) s (<[group := parse_step g]> s)) as H1
        by (apply evolves_insert; [done | left]).
      destruct (parse_datasets (Group.datasets g)).1; [|now inversion H; subst].
      destruct (unique_names _ _ _) as [names|]; [|now inversion H; subst].
      eapply evolves_trans; [exact H1|]. revert H.
      apply (effect_bind (evolves (group :: rest))); [apply evolves_trans| |].
      * apply effect_mapM; [apply evolves_refl | apply evolves_trans|]. intros name.
        apply node_for_effect; [apply evolves_refl | apply evolves_trans|].
        intros f s1 r1 s2 Hf. eapply evolves_weaken; [|eapply IH, Hf].
        intros l Hl. now right.
      * intros r. apply effect_ret, evolves_refl.
    + rewrite (groupBy_cons_None _ _ _ _ _ Hg) in H. inversion H; subst. apply evolves_refl.
Qed.

End Store.

(** ** The buckets of a level *)

Lemma loose_eq_refl x : JS.loose_eq x x = true.
Proof.
  destruct x; simpl; [done | apply Z.eqb_refl | apply String.eqb_refl].
Qed.


Section Buckets.

Context (Date_parse : string -> option Z) (downloadFields : list string).
Context (aggFunc : list record -> Group.t -> value -> result (list aggval)).
Context (pathAggFunc : store -> list record -> list loc -> loc -> value -> result string).

Local Abbreviation groupBy' := (groupBy Date_parse downloadFields aggFunc pathAggFunc).
Local Abbreviation node_for' := (node_for Date_parse downloadFields aggFunc pathAggFunc).




End Buckets.

(** *** The failing case *)

(** C1.  A number and the string that spells it are two names for
    [indexOf] and one value for [==]: each of the two nodes gets both
    records. *)
Theorem groupBy_mixed_names_overlap :
  exists r s',
    sample_groupBy (keyed [VNum 1; VStr "1"]) [0%nat] [0%nat] {[ 0%nat := by_g [] ]}
    = (Ok (Branch r), s')
    /\ map Node.name r = [VNum 1; VStr "1"]
    /\ map Node.data r = [keyed [VNum 1; VStr "1"]; keyed [VNum 1; VStr "1"]].
Proof. eexists _, _. split; [vm_compute; reflexivity|]. split; reflexivity. Qed.

(** ** Malformed series descriptors *)




Lemma parse_field_datasets g str : Group.datasets (parse_field g str) = Group.datasets g.
Proof.
  unfold parse_field. destruct (JS.test_prefix _ _); [|reflexivity].
  now destruct (JS.match_parens _).
Qed.





Section Malformed.

Context (Date_parse : string -> option Z) (downloadFields : list string).
Context (aggFunc : list record -> Group.t -> value -> result (list aggval)).
Context (pathAggFunc : store -> list record -> list loc -> loc -> value -> result string).

Local Abbreviation groupBy' := (groupBy Date_parse downloadFields aggFunc pathAggFunc).
Local Abbreviation node_for' := (node_for Date_parse downloadFields aggFunc pathAggFunc).


Lemma bucket_of_name_nonempty data g names name f :
  unique_names Date_parse data g = Ok names -> name ∈ names ->
  bucket Date_parse data g name = Ok f -> f <> [].
Proof.
  intros (_ & Hin & _)%unique_names_spec Hname Hf.
  apply Hin in Hname as (r & Hr & Hv).
  apply bucket_filter in Hf. subst f. intros Hnil.
  assert (r ∈ filter (fun r => matches Date_parse g name r = Ok true) data) as Hr'.
  { apply list_elem_of_filter. split; [|done].
    unfold matches. rewrite Hv. simpl. now rewrite loose_eq_refl. }
  rewrite Hnil in Hr'. now apply elem_of_nil in Hr'.
Qed.



End Malformed.

(** *** Examples *)



(** ** Date truncation *)










Section DateTrunc.

Context (Date_parse : string -> option Z).



End DateTrunc.

(** *** Examples *)

Definition by_field (field : string) : Group.t :=
  {| Group.field := Some field;
     Group.datasets := [];
     Group.chart := None;
     Group.modifier := None;
     Group.modifierParams := None |}.



(** ** The max and min aggregates *)



Lemma lt_Qc_of_Z a b : JS.lt (Num (Qc_of_Z a)) (Num (Qc_of_Z b)) = bool_decide (a < b).
Proof. simpl. apply bool_decide_ext. symmetry. apply Z2Qc_inj_lt. Qed.

Section MaxMin.

Context (Date_parse : string -> option Z).

(** A spec that carries a modifier carries its parameters, as after
    [parseGroupByField]; [applyModifier] then does not throw. *)
Definition well_formed (group : Group.t) : Prop :=
  Group.modifier group <> None -> Group.modifierParams group <> None.

Lemma matches_well_formed group name r :
  well_formed group -> matches Date_parse group name r <> TypeError.
Proof.
  unfold well_formed, matches, group_value, applyModifier. intros Hwf.
  destruct (Group.modifier group) as [m|]; [|discriminate].
  destruct (JS.test_prefix "date_trunc" m); [|discriminate].
  destruct (Group.modifierParams group) as [ps|]; [|now destruct Hwf].
  repeat destruct (JS.test_prefix _ (JS.key_of _)); discriminate.
Qed.

(** The records of [data] that the aggregates count in, and the integers
    [parseInt] reads in their field [aggField]; a value that parses to [NaN]
    contributes nothing, as no comparison with it holds. *)
Definition counted (data : list record) (group : Group.t) (name : value) : list record :=
  filter (fun r => matches Date_parse group name r = Ok true) data.

Definition parsed_ints (aggField : option string) (records : list record) : list Z :=
  omap (fun r => JS.parseInt_string (JS.ToString (get r (JS.key_of aggField)))) records.

Lemma counted_cons r data group name :
  counted (r :: data) group name
  = match matches Date_parse group name r with
    | Ok true => r :: counted data group name
    | _ => counted data group name
    end.
Proof.
  unfold counted. rewrite filter_cons.
  destruct (matches Date_parse group name r) as [[]|];
    [rewrite decide_True by done | rewrite decide_False by (intros [=])
     | rewrite decide_False by (intros [=])]; reflexivity.
Qed.

Lemma running_max data group name aggField a :
  Forall (fun r => matches Date_parse group name r <> TypeError) data ->
  result_foldl (fun (returnNum : jsnum) (r : record) =>
      let? m := matches Date_parse group name r in
      Ok (if m && JS.lt returnNum (JS.parseInt (get r (JS.key_of aggField)))
          then JS.parseInt (get r (JS.key_of aggField)) else returnNum))
    (Num (Qc_of_Z a)) data
  = Ok (Num (Qc_of_Z (fold_left Z.max (parsed_ints aggField (counted data group name)) a))).
Proof.
  intros Hall. revert a. induction Hall as [|r data Hr _ IH]; intros a; [reflexivity|].
  cbn [result_foldl]. rewrite counted_cons.
  destruct (matches Date_parse group name r) as [[]|] eqn:Hm; [| |done];
    cbn [result_bind andb]; [|apply IH].
  unfold parsed_ints. cbn [omap list_omap]. unfold JS.parseInt.
  destruct (JS.parseInt_string _) as [z|]; [|apply IH].
  fold (parsed_ints aggField (counted data group name)). cbn [fold_left].
  rewrite <- IH, lt_Qc_of_Z. f_equal. case_bool_decide; do 2 f_equal; lia.
Qed.

Lemma running_min data group name aggField a :
  Forall (fun r => matches Date_parse group name r <> TypeError) data ->
  result_foldl (fun (returnNum : jsnum) (r : record) =>
      let? m := matches Date_parse group name r in
      Ok (if m && JS.lt (JS.parseInt (get r (JS.key_of aggField))) returnNum
          then JS.parseInt (get r (JS.key_of aggField)) else returnNum))
    (Num (Qc_of_Z a)) data
  = Ok (Num (Qc_of_Z (fold_left Z.min (parsed_ints aggField (counted data group name)) a))).
Proof.
  intros Hall. revert a. induction Hall as [|r data Hr _ IH]; intros a; [reflexivity|].
  cbn [result_foldl]. rewrite counted_cons.
  destruct (matches Date_parse group name r) as [[]|] eqn:Hm; [| |done];
    cbn [result_bind andb]; [|apply IH].
  unfold parsed_ints. cbn [omap list_omap]. unfold JS.parseInt.
  destruct (JS.parseInt_string _) as [z|]; [|apply IH].
  fold (parsed_ints aggField (counted data group name)). cbn [fold_left].
  rewrite <- IH, lt_Qc_of_Z. f_equal. case_bool_decide; do 2 f_equal; lia.
Qed.



End MaxMin.

(** *** Examples *)


(** ** Quantiles *)

(** Sorting commutes with a map that preserves the comparison. *)
Lemma sort_map {A B} (f : A -> B) (cmpA : A -> A -> comparison) (cmpB : B -> B -> comparison) l :
  (forall x y, cmpB (f x) (f y) = cmpA x y) ->
  JS.sort cmpB (map f l) = map f (JS.sort cmpA l).
Proof.
  intros Hcmp. induction l as [|x l IH]; [reflexivity|]. simpl. rewrite IH.
  generalize (JS.sort cmpA l). clear IH. intros s.
  induction s as [|y s IH]; [reflexivity|]. simpl. rewrite Hcmp.
  destruct (cmpA x y); simpl; now rewrite ?IH.
Qed.

(** The comparator of [Array_Sort_Numbers] on two numbers that are not
    [NaN]. *)
Definition compare_numbers (a b : Qc) : comparison :=
  JS.difference_compare (Num a) (Num b).

Lemma Qc_sub_neg (a b : Qc) : (a - b < 0)%Qc <-> (a < b)%Qc.
Proof.
  split; intros H.
  - apply Qclt_minus_iff. apply Qclt_minus_iff in H.
    replace (b + - a)%Qc with (0 + - (a - b))%Qc by ring. exact H.
  - apply Qclt_minus_iff. apply Qclt_minus_iff in H.
    replace (0 + - (a - b))%Qc with (b + - a)%Qc by ring. exact H.
Qed.

Lemma Qc_sub_pos (a b : Qc) : (0 < a - b)%Qc <-> (b < a)%Qc.
Proof.
  rewrite (Qclt_minus_iff b a), (Qclt_minus_iff 0 (a - b)).
  now replace (a - b + - 0)%Qc with (a + - b)%Qc by ring.
Qed.

Lemma compare_numbers_before a b : before compare_numbers a b <-> (a <= b)%Qc.
Proof.
  unfold before, compare_numbers, JS.difference_compare. simpl.
  repeat case_bool_decide; rewrite ?Qc_sub_neg, ?Qc_sub_pos in *; split; try done.
  - intros _. now apply Qclt_le_weak.
  - intros Hle. now apply Qcle_not_lt in Hle.
  - intros _. now apply Qcnot_lt_le.
Qed.

Lemma compare_numbers_total a b : compare_numbers a b = Gt -> compare_numbers b a <> Gt.
Proof.
  intros H. apply compare_numbers_before.
  assert (~ before compare_numbers a b) as Hn by (intros Hb; now apply Hb).
  rewrite compare_numbers_before in Hn. apply Qcnot_le_lt in Hn. now apply Qclt_le_weak.
Qed.

Lemma Sorted_weaken {A} (R R' : A -> A -> Prop) l :
  (forall x y, R x y -> R' x y) -> Sorted R l -> Sorted R' l.
Proof.
  intros HR. induction 1 as [|x l _ IH Hx]; constructor; [exact IH|].
  destruct Hx; constructor; auto.
Qed.

(** Ascending, and the same numbers. *)
Lemma sort_numbers values :
  Sorted Qcle (JS.sort compare_numbers values) /\ JS.sort compare_numbers values ≡ₚ values.
Proof.
  split; [|apply sort_Permutation].
  eapply Sorted_weaken; [|apply sort_Sorted, compare_numbers_total].
  intros a b. apply compare_numbers_before.
Qed.

(** There is one ascending arrangement of a list of numbers. *)
Lemma sort_numbers_unique values sorted :
  Sorted Qcle sorted -> sorted ≡ₚ values -> JS.sort compare_numbers values = sorted.
Proof.
  intros Hs Hp. destruct (sort_numbers values) as [Hs' Hp'].
  apply (Sorted_unique Qcle); [done..|]. now rewrite Hp', Hp.
Qed.

Lemma sort_Num values :
  JS.sort JS.difference_compare (map Num values) = map Num (JS.sort compare_numbers values).
Proof. now apply sort_map. Qed.





Section Quantiles.

Lemma Array_Sort_Numbers_eq (h : heap) inputarray a :
  h !! inputarray = Some a ->
  Array_Sort_Numbers inputarray h
  = (Ok inputarray, <[inputarray := JS.sort JS.difference_compare a]> h).
Proof.
  intros Ha. unfold Array_Sort_Numbers, bind, deref, assign, ret. now rewrite Ha.
Qed.

(** [Quartile], once the array is sorted. *)
Lemma Quartile_eq (h : heap) data a q :
  h !! data = Some a ->
  let a' := JS.sort JS.difference_compare a in
  let pos := (Qc_of_Z (Z.of_nat (length a') - 1) * q)%Qc in
  let base := Qfloor pos in
  let rest := (pos - Qc_of_Z base)%Qc in
  Quartile data q h =
    (Ok (match index a' (base + 1) with
         | Some _ =>
             Some (JS.add (JS.to_number (index a' base))
                     (JS.mul (Num rest)
                        (JS.sub (JS.to_number (index a' (base + 1)))
                                (JS.to_number (index a' base)))))
         | None => index a' base
         end),
     <[data := a']> h).
Proof.
  intros Ha. cbv zeta. unfold Quartile. unfold bind at 1.
  rewrite (Array_Sort_Numbers_eq _ _ _ Ha). unfold bind, deref.
  rewrite lookup_insert_eq. now destruct (index _ _).
Qed.


(** C10.  [Array_Sort_Numbers] returns the array it was given, sorted in
    place; a call to [Quartile], [Quartile_25], [Quartile_50] or
    [Quartile_75] therefore leaves the caller's array rearranged, and nothing
    else changed.  On numbers none of which is [NaN] the new arrangement is
    the ascending one, and this is also what the boxplot aggregate leaves in
    its array of values. *)
Theorem Quartile_sorts_in_place (h : heap) data a q :
  h !! data = Some a ->
  let a' := JS.sort JS.difference_compare a in
  a' ≡ₚ a
  /\ Array_Sort_Numbers data h = (Ok data, <[data := a']> h)
  /\ (Quartile data q h).2 = <[data := a']> h
  /\ (Quartile_25 data h).2 = <[data := a']> h
  /\ (Quartile_50 data h).2 = <[data := a']> h
  /\ (Quartile_75 data h).2 = <[data := a']> h
  /\ (forall values, a = map Num values ->
        exists sorted,
          a' = map Num sorted /\ Sorted Qcle sorted /\ sorted ≡ₚ values
          /\ (boxplot_quartiles a).2 = {[ 0%nat := a' ]}).
Proof.
  intros Ha a'. split; [apply sort_Permutation|].
  split; [now apply Array_Sort_Numbers_eq|].
  unfold Quartile_25, Quartile_50, Quartile_75.
  rewrite !(Quartile_eq _ _ _ _ Ha). cbv zeta. cbn [snd]. fold a'.
  repeat (split; [reflexivity|]).
  intros values ->. destruct (sort_numbers values) as [Hs Hp].
  exists (JS.sort compare_numbers values).
  assert (a' = map Num (JS.sort compare_numbers values)) as Ha' by apply sort_Num.
  repeat split; try done.
  assert (JS.sort JS.difference_compare a' = a') as Hidem.
  { rewrite Ha', sort_Num. f_equal. now apply sort_numbers_unique. }
  unfold boxplot_quartiles, Quartile_25, Quartile_50, Quartile_75.
  unfold bind at 1. rewrite (Quartile_eq {[ 0%nat := map Num values ]} 0%nat (map Num values))
    by apply lookup_singleton_eq.
  cbv zeta. rewrite insert_singleton_eq. fold a'.
  unfold bind at 1. rewrite (Quartile_eq {[ 0%nat := a' ]} 0%nat a') by apply lookup_singleton_eq.
  cbv zeta. rewrite insert_singleton_eq, Hidem.
  unfold bind at 1. rewrite (Quartile_eq {[ 0%nat := a' ]} 0%nat a') by apply lookup_singleton_eq.
  cbv zeta. rewrite insert_singleton_eq, Hidem. reflexivity.
Qed.

End Quantiles.

(** *** Examples *)

Definition numbers (zs : list Z) : list Qc := map Qc_of_Z zs.


Lemma Quartile_sorts_in_place_witness :
  Array_Sort_Numbers 0%nat {[ 0%nat := map Num (numbers [3; 1; 4; 2]) ]}
  = (Ok 0%nat,
     <[ 0%nat := JS.sort JS.difference_compare (map Num (numbers [3; 1; 4; 2])) ]>
       {[ 0%nat := map Num (numbers [3; 1; 4; 2]) ]})
  /\ JS.sort JS.difference_compare (map Num (numbers [3; 1; 4; 2]))
     = map Num (numbers [1; 2; 3; 4]).
Proof.
  split.
  - apply (Quartile_sorts_in_place {[ 0%nat := map Num (numbers [3; 1; 4; 2]) ]} 0%nat
             (map Num (numbers [3; 1; 4; 2])) (Q2Qc (1 # 2))).
    apply lookup_singleton_eq.
  - vm_compute. reflexivity.
Defined.

(** ** Running [groupBy] again *)

(** Parsing the field of [g] a second time changes nothing more. *)
Definition stable (g : Group.t) : Prop :=
  let g' := parse_field g (Group.field g) in
  parse_field g' (Group.field g') = g'.

(** [g] is as a level of [groupBy] would leave it. *)
Definition settled (g : Group.t) : Prop := parse_step g = g.

Lemma parse_datasets_idem datasets :
  parse_datasets (parse_datasets datasets).2 = parse_datasets datasets.
Proof.
  induction datasets as [|d ds IH]; [reflexivity|]. simpl.
  destruct (parseAggStr (Dataset.data d)) as [f|] eqn:E.
  - destruct (parse_datasets ds) as [r ds'] eqn:E'. simpl in *. now rewrite E, IH.
  - simpl. now rewrite E.
Qed.

Lemma parse_field_with_datasets g datasets str :
  parse_field (with_datasets g datasets) str = with_datasets (parse_field g str) datasets.
Proof.
  unfold parse_field. destruct (JS.test_prefix _ _); [|reflexivity].
  now destruct (JS.match_parens _).
Qed.

Lemma with_datasets_twice g ds ds' : with_datasets (with_datasets g ds) ds' = with_datasets g ds'.
Proof. reflexivity. Qed.

Lemma with_datasets_same g : with_datasets g (Group.datasets g) = g.
Proof. now destruct g. Qed.

Lemma parse_field_field_datasets g ds str :
  Group.field (with_datasets (parse_field g str) ds) = Group.field (parse_field g str).
Proof. reflexivity. Qed.

(** After one level, a stable spec is settled. *)
Lemma stable_settled g : stable g -> settled (parse_step g).
Proof.
  unfold stable, settled, parse_step, parsed. cbv zeta. intros Hst.
  destruct (parse_datasets (Group.datasets g)) as [r ds] eqn:E.
  pose proof (parse_datasets_idem (Group.datasets g)) as Hidem. rewrite E in Hidem.
  simpl in *. destruct r as [[]|]; simpl.
  - rewrite parse_field_with_datasets. simpl. rewrite Hidem. simpl.
    rewrite with_datasets_twice, parse_field_with_datasets. 
    change (Group.field (with_datasets (parse_field g (Group.field g)) ds))
      with (Group.field (parse_field g (Group.field g))).
    now rewrite Hst.
  - rewrite Hidem. reflexivity.
Qed.

Lemma stable_with_datasets g ds : stable g -> stable (with_datasets g ds).
Proof.
  unfold stable. cbv zeta. intros Hst.
  change (Group.field (with_datasets g ds)) with (Group.field g).
  rewrite parse_field_with_datasets.
  change (Group.field (with_datasets (parse_field g (Group.field g)) ds))
    with (Group.field (parse_field g (Group.field g))).
  now rewrite parse_field_with_datasets, Hst.
Qed.

Lemma stable_parse_step g : stable g -> stable (parse_step g).
Proof.
  intros Hst. unfold parse_step, parsed.
  destruct (parse_datasets (Group.datasets g)).1.
  - rewrite parse_field_with_datasets. apply stable_with_datasets.
    change (Group.field (with_datasets g (parse_datasets (Group.datasets g)).2))
      with (Group.field g).
    unfold stable in *. cbv zeta in *. now rewrite !Hst.
  - now apply stable_with_datasets.
Qed.

Lemma stable_iter k g : stable g -> stable (Nat.iter k parse_step g).
Proof. intros Hst. induction k as [|k IH]; [done|]. simpl. now apply stable_parse_step. Qed.

Lemma settled_iter k g : settled g -> Nat.iter k parse_step g = g.
Proof. intros Hs. induction k as [|k IH]; [done|]. simpl. now rewrite IH. Qed.

(** A spec whose field, once parsed, does not start with [date_trunc] is
    stable. *)
Lemma stable_plain g :
  JS.test_prefix "date_trunc" (JS.key_of (Group.field (parse_field g (Group.field g)))) = false ->
  stable g.
Proof.
  unfold stable. cbv zeta. intros H. unfold parse_field at 1. now rewrite H.
Qed.

(** The series descriptors decide whether the first parsing step throws. *)
Lemma parse_step_status g :
  (parse_datasets (Group.datasets (parse_step g))).1 = (parse_datasets (Group.datasets g)).1.
Proof.
  unfold parse_step, parsed.
  destruct (parse_datasets (Group.datasets g)).1 eqn:E;
    rewrite ?parse_field_datasets; simpl; now rewrite parse_datasets_idem.
Qed.

(** From [s] to [s'], specs were only parsed. *)
Definition advances (s s' : store) : Prop :=
  forall l, exists k, s' !! l = Nat.iter k parse_step <$> s !! l.

Lemma evolves_advances locs s s' : evolves locs s s' -> advances s s'.
Proof. intros H l. destruct (H l) as (k & E & _). eauto. Qed.

Lemma advances_refl s : advances s s.
Proof. apply (evolves_advances []), evolves_refl. Qed.

Lemma advances_trans s1 s2 s3 : advances s1 s2 -> advances s2 s3 -> advances s1 s3.
Proof.
  intros H12 H23 l. destruct (H12 l) as (k1 & E1), (H23 l) as (k2 & E2).
  exists (k2 + k1)%nat. rewrite E2, E1. destruct (s1 !! l); simpl; [|done].
  now rewrite Nat.iter_add.
Qed.

(** What is true of a location: its spec, if any, is settled. *)
Definition settled_at (s : store) (l : loc) : Prop :=
  forall g, s !! l = Some g -> settled g.

Lemma advances_settled s s' l :
  advances s s' -> settled_at s l -> s' !! l = s !! l /\ settled_at s' l.
Proof.
  intros H Hl. destruct (H l) as (k & E).
  assert (s' !! l = s !! l) as Heq.
  { rewrite E. destruct (s !! l) as [g|] eqn:Hg; [|done]. simpl.
    now rewrite (settled_iter _ _ (Hl g Hg)). }
  split; [done|]. intros g. rewrite Heq. apply Hl.
Qed.

Definition stable_on (s : store) (locs : list loc) : Prop :=
  forall l g, l ∈ locs -> s !! l = Some g -> stable g.

Lemma advances_stable s s' locs : advances s s' -> stable_on s locs -> stable_on s' locs.
Proof.
  intros H Hst l g' Hl Hg'. destruct (H l) as (k & E). rewrite E in Hg'.
  destruct (s !! l) as [g|] eqn:Hg; [|done]. simpl in Hg'. inversion Hg'; subst.
  apply stable_iter. eapply Hst; eauto.
Qed.

(** A computation that, run again from where it ended or from any later
    store, does the same and writes nothing. *)
Definition replays {A} (m : M store A) (s : store) : Prop :=
  forall res s', m s = (res, s') ->
    advances s s' /\ forall t, advances s' t -> m t = (res, t).

Lemma replays_ret {A} (a : A) s : replays (ret a) s.
Proof.
  intros res s' H. inversion H; subst. split; [apply advances_refl|reflexivity].
Qed.

Lemma replays_lift {A} (r : result A) s : replays (lift r) s.
Proof.
  intros res s' H. inversion H; subst. split; [apply advances_refl|reflexivity].
Qed.

Lemma replays_bind {A B} (m : M store A) (f : A -> M store B) s :
  replays m s ->
  (forall a s1, m s = (Ok a, s1) -> replays (f a) s1) ->
  replays (bind m f) s.
Proof.
  intros Hm Hf res s' H. unfold bind in H.
  destruct (m s) as [[a|] s1] eqn:E.
  - destruct (Hm _ _ E) as [H1 Hm']. destruct (Hf a s1 eq_refl _ _ H) as [H2 Hf'].
    split; [eapply advances_trans; eauto|].
    intros t Ht. unfold bind. rewrite (Hm' t (advances_trans _ _ _ H2 Ht)). now apply Hf'.
  - inversion H; subst. destruct (Hm _ _ E) as [H1 Hm']. split; [done|].
    intros t Ht. unfold bind. now rewrite (Hm' t Ht).
Qed.

Lemma replays_mapM {A B} (I : store -> Prop) (f : A -> M store B) l s :
  (forall s s', I s -> advances s s' -> I s') ->
  (forall x s1, I s1 -> replays (f x) s1) ->
  I s -> replays (mapM f l) s.
Proof.
  intros HI Hf. revert s. induction l as [|x l IH]; intros s Hs; simpl.
  - apply replays_ret.
  - apply replays_bind; [now apply Hf|]. intros y s1 Hy.
    assert (I s1) as Hs1 by (eapply HI; [exact Hs|]; now apply (Hf x s Hs _ _ Hy)).
    apply replays_bind; [now apply IH|]. intros ys s2 _. apply replays_ret.
Qed.

Lemma replays_deref (s : store) l : settled_at s l -> replays (deref l) s.
Proof.
  intros Hl res s' H. unfold deref in *.
  assert (s' = s) as -> by (destruct (s !! l); now inversion H).
  split; [apply advances_refl|]. intros t Ht.
  destruct (advances_settled _ _ _ Ht Hl) as [-> _].
  destruct (s !! l); now inversion H.
Qed.

Section Rerun.

Context (Date_parse : string -> option Z) (downloadFields : list string).
Context (aggFunc : list record -> Group.t -> value -> result (list aggval)).

Local Abbreviation groupBy' :=
  (groupBy Date_parse downloadFields aggFunc (pathAggFunction Date_parse)).
Local Abbreviation node_for' :=
  (node_for Date_parse downloadFields aggFunc (pathAggFunction Date_parse)).

(** The path of a node only reads the specs of its own level and of the
    levels above. *)
Lemma path_loop_agree (s t : store) data0 pre group rest g path :
  (forall l, l ∈ pre ++ [group] -> t !! l = s !! l) ->
  s !! group = Some g ->
  path_loop Date_parse t data0 (pre ++ group :: rest) g path
  = path_loop Date_parse s data0 (pre ++ group :: rest) g path.
Proof.
  intros Hst Hg. revert path. induction pre as [|l pre IH]; intros path; simpl.
  - rewrite (Hst group) by (simpl; left). rewrite Hg.
    rewrite bool_decide_eq_true_2 by done. reflexivity.
  - rewrite (Hst l) by (simpl; left). destruct (s !! l) as [gl|]; [|reflexivity].
    assert (forall l', l' ∈ pre ++ [group] -> t !! l' = s !! l') as Hst'
      by (intros l' Hl'; apply Hst; simpl; now right).
    specialize (IH Hst').
    destruct (negb _); [|reflexivity]. destruct data0 as [r|]; [|reflexivity].
    destruct (group_value Date_parse gl r); simpl; [apply IH|reflexivity].
Qed.

Lemma pathAggFunction_agree (s t : store) data pre group rest name :
  (forall l, l ∈ pre ++ [group] -> t !! l = s !! l) ->
  pathAggFunction Date_parse t data (pre ++ group :: rest) group name
  = pathAggFunction Date_parse s data (pre ++ group :: rest) group name.
Proof.
  intros Hst. unfold pathAggFunction.
  destruct (pre ++ group :: rest) as [|l0 ls] eqn:E; [reflexivity|]. rewrite <- E.
  rewrite (Hst group) by (apply elem_of_app; right; left).
  destruct (s !! group) as [g|] eqn:Hg; [|reflexivity].
  now apply path_loop_agree.
Qed.

(** What holds of the store while the nodes of a level are built: the specs
    of the levels above and of the level itself are settled, and those of the
    levels below are stable. *)
Definition level_ready (pre : list loc) (group : loc) (rest : list loc) (s : store) : Prop :=
  (forall l, l ∈ pre ++ [group] -> settled_at s l) /\ stable_on s rest.

Lemma level_ready_advances pre group rest s s' :
  level_ready pre group rest s -> advances s s' -> level_ready pre group rest s'.
Proof.
  intros [Hset Hst] Hadv. split.
  - intros l Hl. now apply (advances_settled _ _ _ Hadv (Hset l Hl)).
  - now apply (advances_stable _ _ _ Hadv).
Qed.

Lemma node_for_replays pre group rest data name s :
  (forall f s1, level_ready pre group rest s1 ->
                replays (groupBy' f rest (pre ++ group :: rest)) s1) ->
  level_ready pre group rest s ->
  replays (node_for' (fun f => groupBy' f rest (pre ++ group :: rest))
             data group (pre ++ group :: rest) name) s.
Proof.
  intros Hrec Hready. unfold node_for.
  assert (settled_at s group) as Hgroup
    by (apply Hready, elem_of_app; right; left).
  apply replays_bind; [now apply replays_deref|]. intros g s1 Hg.
  assert (s1 = s) as -> by (unfold deref in Hg; destruct (s !! group); now inversion Hg).
  apply replays_bind; [apply replays_lift|]. intros f s1 Hf.
  apply lift_Ok_inv in Hf as [_ ->].
  apply replays_bind; [apply replays_lift|]. intros y s1 Hy.
  apply lift_Ok_inv in Hy as [_ ->].
  apply replays_bind; [now apply Hrec|]. intros d s1 Hd.
  assert (level_ready pre group rest s1) as Hready1.
  { eapply level_ready_advances; [exact Hready|]. now apply (Hrec f s Hready _ _ Hd). }
  apply replays_bind; [|intros p s2 _; apply replays_ret].
  intros res s' H. inversion H; subst. split; [apply advances_refl|].
  intros t Ht. f_equal. apply pathAggFunction_agree.
  intros l Hl. now apply (advances_settled _ _ _ Ht (proj1 Hready1 l Hl)).
Qed.

Lemma groupBy_replays rest : forall pre data s,
  (forall l, l ∈ pre -> settled_at s l) -> stable_on s rest ->
  replays (groupBy' data rest (pre ++ rest)) s.
Proof.
  induction rest as [|group rest IH]; intros pre data s Hpre Hst.
  { apply replays_ret. }
  intros res s' H.
  destruct (s !! group) as [g|] eqn:Hg.
  - assert (stable g) as Hg_st by (eapply Hst; [left|exact Hg]).
    pose proof (stable_settled g Hg_st) as Hg1.
    assert (advances s (<[group := parse_step g]> s)) as Hadv1.
    { apply (evolves_advances [group]), evolves_insert; [done|left]. }
    assert (level_ready pre group rest (<[group := parse_step g]> s)) as Hready.
    { split.
      - intros l [Hl|Hl%list_elem_of_singleton]%elem_of_app.
        + now apply (advances_settled _ _ _ Hadv1 (Hpre l Hl)).
        + subst l. intros g'. rewrite lookup_insert_eq. now intros [= <-].
      - apply (advances_stable _ _ _ Hadv1). intros l g' Hl. apply Hst. now right. }
    assert (forall t, advances (<[group := parse_step g]> s) t ->
                      t !! group = Some (parse_step g) /\ <[group := parse_step (parse_step g)]> t = t)
      as Hback.
    { intros t Ht.
      assert (settled_at (<[group := parse_step g]> s) group) as Hs
        by (apply Hready, elem_of_app; right; left).
      destruct (advances_settled _ _ _ Ht Hs) as [Ht' _].
      rewrite lookup_insert_eq in Ht'. split; [done|]. rewrite Hg1. now apply insert_id. }
    rewrite (groupBy_cons_step _ _ _ _ _ _ _ _ _ _ Hg) in H. cbv zeta in H.
    assert (forall t, advances (<[group := parse_step g]> s) t ->
              groupBy' data (group :: rest) (pre ++ group :: rest) t =
              match (parse_datasets (Group.datasets g)).1 with
              | TypeError => (TypeError, t)
              | Ok _ =>
                  match unique_names Date_parse data (parsed g) with
                  | TypeError => (TypeError, t)
                  | Ok names =>
                      bind (mapM (node_for' (fun f => groupBy' f rest (pre ++ group :: rest))
                                    data group (pre ++ group :: rest))
                              (JS.sort JS.default_compare names))
                           (fun r => ret (Branch r)) t
                  end
              end) as Hrun.
    { intros t Ht. destruct (Hback t Ht) as [Htg Hid].
      rewrite (groupBy_cons_step _ _ _ _ _ _ _ _ _ _ Htg). cbv zeta.
      rewrite Hid, parse_step_status.
      destruct (parse_datasets (Group.datasets g)).1 eqn:E; [|reflexivity].
      assert (parsed (parse_step g) = parsed g) as ->; [|reflexivity].
      assert (parse_step g = parsed g) as Hp by (unfold parse_step; now rewrite E).
      assert (parse_step (parse_step g) = parsed (parse_step g)) as Hpp
        by (unfold parse_step at 1; now rewrite parse_step_status, E).
      unfold settled in Hg1. now rewrite <- Hpp, Hg1, Hp. }
    destruct (parse_datasets (Group.datasets g)).1 eqn:E.
    + destruct (unique_names Date_parse data (parsed g)) as [names|] eqn:En.
      * assert (replays (bind (mapM (node_for' (fun f => groupBy' f rest (pre ++ group :: rest))
                                       data group (pre ++ group :: rest))
                                 (JS.sort JS.default_compare names))
                              (fun r => ret (Branch r)))
                  (<[group := parse_step g]> s)) as Hloop.
        { apply replays_bind; [|intros r s1 _; apply replays_ret].
          apply (replays_mapM (level_ready pre group rest)); [|intros name s1 Hs1|exact Hready].
          - intros s1 s2. apply level_ready_advances.
          - apply node_for_replays; [|exact Hs1].
            intros f s2 [Hset2 Hst2].
            replace (pre ++ group :: rest) with ((pre ++ [group]) ++ rest)
              by (now rewrite <- app_assoc).
            now apply IH. }
        destruct (Hloop _ _ H) as [Hadv Hagain].
        split; [eapply advances_trans; eauto|].
        intros t Ht. rewrite (Hrun t (advances_trans _ _ _ Hadv Ht)). now apply Hagain.
      * inversion H; subst. split; [done|]. intros t Ht. now rewrite (Hrun t Ht).
    + inversion H; subst. split; [done|]. intros t Ht. now rewrite (Hrun t Ht).
  - rewrite (groupBy_cons_None _ _ _ _ _ _ _ _ _ Hg) in H. inversion H; subst.
    split; [apply advances_refl|]. intros t Ht.
    apply groupBy_cons_None. destruct (Ht group) as (k & Hk). now rewrite Hk, Hg.
Qed.

(** X1.  Running [groupBy] twice.  When [fullGroupBy] is the list of specs
    itself and each spec is stable, a second run on the specs as the first run
    left them returns what the first run returned, or throws as it threw, and
    leaves the specs as they are. *)
Theorem groupBy_rerun data groups (s : store) res s' :
  stable_on s groups ->
  groupBy' data groups groups s = (res, s') ->
  groupBy' data groups groups s' = (res, s').
Proof.
  intros Hst H.
  destruct (groupBy_replays groups [] data s) with (res := res) (s' := s') as [_ Hagain];
    [intros l Hl; now apply elem_of_nil in Hl | exact Hst | exact H |].
  apply Hagain, advances_refl.
Qed.

End Rerun.

(** *** Examples *)

(** Two levels: the field [g], then the month of the date [d]. *)
Definition dated_records : list record :=
  [ record_of [("g", VStr "A"); ("v", VStr "10"); ("d", VStr "2018-03-15T00:00:00Z")];
    record_of [("g", VStr "A"); ("v", VStr "5"); ("d", VStr "2018-04-01T00:00:00Z")];
    record_of [("g", VStr "B"); ("v", VStr "3"); ("d", VStr "2018-03-20T00:00:00Z")] ].

Definition two_levels : store :=
  {[ 0%nat := by_g ["sum(v)"];
     1%nat := {| Group.field := Some "date_trunc(month,d)";
                 Group.datasets := [Dataset.mk "count(v)" None];
                 Group.chart := Some "line";
                 Group.modifier := None;
                 Group.modifierParams := None |} ]}.

Lemma groupBy_rerun_witness :
  let first := sample_groupBy dated_records [0%nat; 1%nat] [0%nat; 1%nat] two_levels in
  first.1 <> TypeError
  /\ sample_groupBy dated_records [0%nat; 1%nat] [0%nat; 1%nat] first.2 = (first.1, first.2).
Proof.
  split; [vm_compute; discriminate|].
  apply (groupBy_rerun JS.iso_Date_parse [] (aggFunction JS.iso_Date_parse)
           dated_records [0%nat; 1%nat] two_levels).
  - intros l g Hl Hg. destruct l as [|[|l]].
    + vm_compute in Hg. inversion Hg; subst. reflexivity.
    + vm_compute in Hg. inversion Hg; subst. reflexivity.
    + exfalso. apply elem_of_cons in Hl as [Hl|Hl]; [discriminate|].
      apply elem_of_cons in Hl as [Hl|Hl]; [discriminate|]. now apply elem_of_nil in Hl.
  - apply surjective_pairing.
Defined.

(** Stability is needed: a field whose second argument is itself a
    [date_trunc] expression is parsed once more by the second run, which then
    groups on another field. *)
Example groupBy_rerun_unstable :
  exists r1 s1 r2 s2,
    sample_groupBy [record_of [("date_trunc(month)", VStr "2018-03-15T00:00:00Z")]]
      [0%nat] [0%nat] {[ 0%nat := by_field "date_trunc(year,date_trunc(month))" ]}
    = (Ok (Branch r1), s1)
    /\ sample_groupBy [record_of [("date_trunc(month)", VStr "2018-03-15T00:00:00Z")]]
         [0%nat] [0%nat] s1 = (Ok (Branch r2), s2)
    /\ map Node.name r1 = [VStr "2018"]
    /\ map Node.name r2 = [VUndef].
Proof.
  eexists _, _, _, _. split; [vm_compute; reflexivity|].
  split; [vm_compute; reflexivity|]. split; reflexivity.
Qed.

(** ** What a call leaves untouched, and what its nodes hold *)




Section Frame.

Context (Date_parse : string -> option Z) (downloadFields : list string).
Context (aggFunc : list record -> Group.t -> value -> result (list aggval)).
Context (pathAggFunc : store -> list record -> list loc -> loc -> value -> result string).

Local Abbreviation groupBy' := (groupBy Date_parse downloadFields aggFunc pathAggFunc).




End Frame.

(** *** Examples *)




(** ** More on quantiles *)











Section QuantileFacts.

Context (h : heap) (data : loc) (values : list Qc).
Hypothesis Harray : h !! data = Some (map Num values).
Hypothesis Hvalues : values <> [].

Let sorted := JS.sort compare_numbers values.





End QuantileFacts.

(** X8.  On an empty array [Quartile] returns [undefined] and on an array of
    one element that element, whatever [q] is; on a name that holds no array
    the call throws. *)
Theorem Quartile_small (h : heap) data q :
  (h !! data = Some [] -> (Quartile data q h).1 = Ok None)
  /\ (forall x, h !! data = Some [x] -> (Quartile data q h).1 = Ok (Some x))
  /\ (h !! data = None -> Quartile data q h = (TypeError, h)).
Proof.
  split; [|split].
  - intros Ha. rewrite (Quartile_eq _ _ _ _ Ha). cbv zeta. cbn [fst JS.sort length].
    unfold index. destruct (0 <=? _), (0 <=? _); reflexivity.
  - intros x Ha. rewrite (Quartile_eq _ _ _ _ Ha). cbv zeta. cbn [fst].
    change (JS.sort JS.difference_compare [x]) with [x]. cbn [length].
    change (Z.of_nat 1 - 1) with 0. rewrite Z2Qc_inj_0, Qcmult_0_l. reflexivity.
  - intros Ha. unfold Quartile, Array_Sort_Numbers, bind, deref. now rewrite Ha.
Qed.

(** *** Examples *)




Lemma Quartile_small_witness :
  (Quartile 0%nat (Q2Qc (1 # 2)) {[ 0%nat := [] ]}).1 = Ok None
  /\ (Quartile 0%nat (Q2Qc (1 # 2)) {[ 0%nat := [NaN] ]}).1 = Ok (Some NaN)
  /\ Quartile 1%nat (Q2Qc (1 # 2)) {[ 0%nat := [] ]} = (TypeError, {[ 0%nat := [] ]}).
Proof.
  split; [|split].
  - apply (proj1 (Quartile_small {[ 0%nat := [] ]} 0%nat (Q2Qc (1 # 2)))). reflexivity.
  - apply (proj1 (proj2 (Quartile_small {[ 0%nat := [NaN] ]} 0%nat (Q2Qc (1 # 2))))).
    reflexivity.
  - apply (proj2 (proj2 (Quartile_small {[ 0%nat := [] ]} 1%nat (Q2Qc (1 # 2))))).
    reflexivity.
Defined.

(** ** The other aggregates *)

Lemma test_prefix_count u :
  JS.test_prefix "count" u = true ->
  JS.test_prefix "sum" u = false /\ JS.test_prefix "max" u = false
  /\ JS.test_prefix "min" u = false.
Proof.
  destruct u as [|c u]; [discriminate|]. unfold JS.test_prefix. cbn [String.prefix].
  destruct (ascii_dec "c" c) as [<-|]; [|discriminate]. repeat split; reflexivity.
Qed.


(** The functions [aggFunction] knows. *)
Definition known (str : string) : bool :=
  JS.test_prefix "sum" str || JS.test_prefix "max" str || JS.test_prefix "min" str
  || JS.test_prefix "count" str || JS.test_prefix "boxplot" str.

Lemma parsed_ints_cons aggField r records :
  parsed_ints aggField (r :: records)
  = match JS.parseInt_string (JS.ToString (get r (JS.key_of aggField))) with
    | Some z => z :: parsed_ints aggField records
    | None => parsed_ints aggField records
    end.
Proof. unfold parsed_ints. cbn [omap list_omap]. now destruct (JS.parseInt_string _). Qed.

Lemma parseInt_cases v :
  JS.parseInt v = match JS.parseInt_string (JS.ToString v) with
                  | Some n => Num (Qc_of_Z n)
                  | None => NaN
                  end.
Proof. reflexivity. Qed.





Lemma fold_count (records : list record) a :
  fold_left (fun (acc : jsnum) (_ : record) => JS.add acc (Num (Qc_of_Z 1)))
    records (Num (Qc_of_Z a))
  = Num (Qc_of_Z (a + Z.of_nat (length records))).
Proof.
  revert a. induction records as [|r records IH]; intros a.
  - simpl. do 2 f_equal. lia.
  - cbn [fold_left JS.add]. rewrite <- Z2Qc_inj_add, IH. cbn [length]. do 2 f_equal. lia.
Qed.







Lemma boxplot_quartiles_Ok a : exists t, (boxplot_quartiles a).1 = Ok t.
Proof.
  unfold boxplot_quartiles, Quartile_25, Quartile_50, Quartile_75.
  unfold bind at 1. rewrite (Quartile_eq _ _ a) by apply lookup_singleton_eq.
  cbv zeta. rewrite insert_singleton_eq.
  unfold bind at 1. rewrite (Quartile_eq _ _ _) by apply lookup_singleton_eq.
  cbv zeta. rewrite insert_singleton_eq.
  unfold bind at 1. rewrite (Quartile_eq _ _ _) by apply lookup_singleton_eq.
  cbv zeta. eexists. reflexivity.
Qed.



Section Aggregates.

Context (Date_parse : string -> option Z).

(** A loop that updates its accumulator on the records counted in. *)
Lemma fold_counted {A} (f : A -> record -> A) data group name a :
  Forall (fun r => matches Date_parse group name r <> TypeError) data ->
  result_foldl (fun (acc : A) (r : record) =>
      let? m := matches Date_parse group name r in
      Ok (if m then f acc r else acc)) a data
  = Ok (fold_left f (counted Date_parse data group name) a).
Proof.
  intros Hall. revert a. induction Hall as [|r data Hr _ IH]; intros a; [reflexivity|].
  cbn [result_foldl]. rewrite counted_cons.
  destruct (matches Date_parse group name r) as [[]|] eqn:Hm; [| |done];
    cbn [result_bind fold_left]; apply IH.
Qed.

Lemma fold_boxplot data group name aggField a b acc :
  Forall (fun r => matches Date_parse group name r <> TypeError) data ->
  result_foldl (fun '((bmin, bmax, arrayOfValues) : jsnum * jsnum * list jsnum) (r : record) =>
        let? m1 := matches Date_parse group name r in
        let bmin := if m1 && JS.lt (JS.parseInt (get r (JS.key_of aggField))) bmin
                    then JS.parseInt (get r (JS.key_of aggField)) else bmin in
        let? m2 := matches Date_parse group name r in
        let bmax := if m2 && JS.lt bmax (JS.parseInt (get r (JS.key_of aggField)))
                    then JS.parseInt (get r (JS.key_of aggField)) else bmax in
        let? m3 := matches Date_parse group name r in
        Ok (bmin, bmax,
            if m3 then arrayOfValues ++ [JS.parseInt (get r (JS.key_of aggField))]
            else arrayOfValues))
      (Num (Qc_of_Z a), Num (Qc_of_Z b), acc) data
  = let records := counted Date_parse data group name in
    Ok (Num (Qc_of_Z (fold_left Z.min (parsed_ints aggField records) a)),
        Num (Qc_of_Z (fold_left Z.max (parsed_ints aggField records) b)),
        acc ++ map (fun r => JS.parseInt (get r (JS.key_of aggField))) records).
Proof.
  intros Hall. revert a b acc.
  induction Hall as [|r data Hr _ IH]; intros a b acc; [cbn; now rewrite app_nil_r|].
  cbn [result_foldl]. rewrite counted_cons. cbv zeta.
  destruct (matches Date_parse group name r) as [[]|] eqn:Hm; [| |done];
    cbn [result_bind andb]; [|apply IH].
  rewrite parsed_ints_cons. cbn [map]. rewrite !parseInt_cases.
  destruct (JS.parseInt_string _) as [z|].
  - rewrite !lt_Qc_of_Z. cbn [fold_left].
    replace (if bool_decide (z < a) then Num (Qc_of_Z z) else Num (Qc_of_Z a))
      with (Num (Qc_of_Z (Z.min a z))) by (case_bool_decide; do 2 f_equal; lia).
    replace (if bool_decide (b < z) then Num (Qc_of_Z z) else Num (Qc_of_Z b))
      with (Num (Qc_of_Z (Z.max b z))) by (case_bool_decide; do 2 f_equal; lia).
    rewrite IH. cbv zeta. now rewrite <- app_assoc.
  - cbn [JS.lt]. rewrite IH. cbv zeta. now rewrite <- app_assoc.
Qed.

Section Series.

Context (data : list record) (group : Group.t) (name : value).
Hypothesis Hgroup : well_formed group.

Let records := counted Date_parse data group name.

Lemma matches_all :
  Forall (fun r => matches Date_parse group name r <> TypeError) data.
Proof. apply list.Forall_forall. intros r _. now apply matches_well_formed. Qed.


(** X10.  On a well-formed spec, a count series yields the number of records
    counted in, whatever their aggregate field holds. *)
Theorem aggFunction_count dataset :
  JS.test_prefix "count" (Dataset.data dataset) = true ->
  aggregate Date_parse data group name dataset
  = Ok (Some (ANum (Num (Qc_of_Z (Z.of_nat (length records)))))).
Proof.
  intros Hp. unfold aggregate. destruct (test_prefix_count _ Hp) as (-> & -> & ->). rewrite Hp.
  rewrite (fold_counted (fun acc _ => JS.add acc (Num (Qc_of_Z 1))) _ _ _ _ matches_all).
  cbn [result_bind]. now rewrite fold_count.
Qed.


(** Each turn of the loop of [aggFunction] succeeds, and pushes an entry
    when the function of the series is known. *)
Lemma aggregate_defined dataset :
  exists v,
    aggregate Date_parse data group name dataset = Ok v
    /\ (is_Some v <-> known (Dataset.data dataset) = true).
Proof.
  unfold known, aggregate.
  destruct (JS.test_prefix "sum" _) eqn:Hsum.
  { rewrite (fold_counted
           (fun acc r => JS.add (JS.parseInt (get r (JS.key_of (Dataset.aggField dataset)))) acc)
           _ _ _ _ matches_all). eexists. split; [reflexivity|]. now split. }
  destruct (JS.test_prefix "max" _) eqn:Hmax.
  { rewrite (running_max _ _ _ _ _ _ matches_all). eexists. split; [reflexivity|]. now split. }
  destruct (JS.test_prefix "min" _) eqn:Hmin.
  { rewrite (running_min _ _ _ _ _ _ matches_all). eexists. split; [reflexivity|]. now split. }
  destruct (JS.test_prefix "count" _) eqn:Hcount.
  { rewrite (fold_counted (fun acc _ => JS.add acc (Num (Qc_of_Z 1))) _ _ _ _ matches_all).
    eexists. split; [reflexivity|]. now split. }
  destruct (JS.test_prefix "boxplot" _) eqn:Hbox.
  { rewrite (fold_boxplot _ _ _ _ _ _ _ matches_all). cbv zeta. cbn [result_bind].
    destruct (boxplot_quartiles_Ok
                ([] ++ map (fun r => JS.parseInt (get r (JS.key_of (Dataset.aggField dataset))))
                   (counted Date_parse data group name))) as ([[q1 median] q3] & ->).
    eexists. split; [reflexivity|]. now split. }
  exists None. split; [reflexivity|]. split; [intros [? [=]]|discriminate].
Qed.

(** X12.  On a well-formed spec [aggFunction] does not throw, and returns
    one entry for each series whose function it knows; a series with another
    function contributes nothing, so that the entries after it move up. *)
Theorem aggFunction_entries :
  exists y,
    aggFunction Date_parse data group name = Ok y
    /\ length y = length (filter (fun d => known (Dataset.data d) = true) (Group.datasets group)).
Proof.
  pose proof aggregate_defined as Hagg.
  unfold aggFunction. generalize (Group.datasets group). intros datasets.
  induction datasets as [|d datasets (y & Hy & Hlen)]; [now exists []|].
  destruct (result_mapM _ datasets) as [pushed|] eqn:Hpushed; [|discriminate].
  cbn [result_bind] in Hy. injection Hy as <-.
  destruct (Hagg d) as (v & Hv & Hknown). cbn [result_mapM]. rewrite Hv, Hpushed.
  cbn [result_bind]. eexists. split; [reflexivity|].
  rewrite filter_cons. destruct v as [v|].
  - rewrite decide_True by (apply Hknown; eauto). cbn. now rewrite Hlen.
  - rewrite decide_False by (intros Hk; apply Hknown in Hk as [? [=]]). cbn. exact Hlen.
Qed.

End Series.

End Aggregates.

(** *** Examples *)

Lemma by_g_well_formed series : well_formed (parsed (by_g series)).
Proof.
  unfold well_formed, parsed, by_g, parse_field. simpl.
  intros H. now destruct H.
Qed.


Lemma aggFunction_count_witness :
  aggregate JS.iso_Date_parse abc_records (parsed (by_g ["count(w)"])) (VStr "A")
    (Dataset.mk "count(w)" (Some "w"))
  = Ok (Some (ANum (Num (Qc_of_Z 2)))).
Proof.
  exact (aggFunction_count JS.iso_Date_parse abc_records (parsed (by_g ["count(w)"])) (VStr "A")
           (by_g_well_formed _) (Dataset.mk "count(w)" (Some "w")) eq_refl).
Defined.


Lemma aggFunction_entries_witness :
  exists y,
    aggFunction JS.iso_Date_parse abc_records (parsed (by_g ["sum(v)"; "avg(v)"; "count(v)"]))
      (VStr "A") = Ok y
    /\ length y = 2%nat.
Proof.
  exact (aggFunction_entries JS.iso_Date_parse abc_records
           (parsed (by_g ["sum(v)"; "avg(v)"; "count(v)"])) (VStr "A") (by_g_well_formed _)).
Defined.

(** ** Paths *)

Lemma string_app_assoc (a b c : string) : (a +:+ b) +:+ c = a +:+ (b +:+ c).
Proof.
  induction a as [|x a IH]; [reflexivity|].
  change (String x ((a +:+ b) +:+ c) = String x (a +:+ (b +:+ c))). now rewrite IH.
Qed.

Lemma string_app_nil_r (a : string) : a +:+ EmptyString = a.
Proof.
  induction a as [|x a IH]; [reflexivity|].
  change (String x (a +:+ EmptyString) = String x a). now rewrite IH.
Qed.

(** The labels of a breadcrumb, each followed by the separator. *)
Fixpoint trail (labels : list string) : string :=
  match labels with
  | [] => EmptyString
  | label :: labels => label +:+ " > " +:+ trail labels
  end.

Lemma trail_concat labels label :
  trail labels +:+ label = String.concat " > " (labels ++ [label]).
Proof.
  induction labels as [|x labels IH]; [reflexivity|].
  cbn [trail app]. rewrite !string_app_assoc, IH.
  destruct labels; reflexivity.
Qed.

Section Paths.

Context (Date_parse : string -> option Z).

(** What [pathAggFunction] appends for the spec at [l], read on the record
    [r]. *)
Definition label_of (s : store) (r : record) (l : loc) : result string :=
  match s !! l with
  | None => TypeError
  | Some g => let? v := group_value Date_parse g r in Ok (JS.ToString v)
  end.

Definition field_at (s : store) (l : loc) : option (option string) :=
  Group.field <$> s !! l.

Lemma path_loop_pre (s : store) r pre labels rest g path :
  Forall2 (fun l label => label_of s r l = Ok label /\ field_at s l <> Some (Group.field g))
    pre labels ->
  path_loop Date_parse s (Some r) (pre ++ rest) g path
  = path_loop Date_parse s (Some r) rest g (path +:+ trail labels).
Proof.
  intros H. revert path. induction H as [|l label pre labels [Hl Hf] _ IH]; intros path.
  - simpl. now rewrite string_app_nil_r.
  - cbn [app path_loop trail]. unfold label_of, field_at in Hl, Hf.
    destruct (s !! l) as [gl|]; [|discriminate]. simpl in Hf.
    rewrite bool_decide_false by congruence. cbn [negb].
    destruct (group_value Date_parse gl r) as [v|]; [|discriminate].
    cbn [result_bind] in Hl |- *. injection Hl as <-.
    rewrite IH. now rewrite !string_app_assoc.
Qed.

(** X13.  The path of a node.  On a non-empty bucket, [pathAggFunction]
    joins with [" > "] the values that the first record of the bucket takes
    under the specs of [groups], up to and including the first spec whose
    field is that of the current level; the specs after that one, the other
    records and [name] are not read.  When no spec has the field of the
    current level, every value is followed by the separator, the last one
    too. *)
Theorem pathAggFunction_breadcrumb (s : store) r data pre labels group g name :
  s !! group = Some g ->
  Forall2 (fun l label => label_of s r l = Ok label /\ field_at s l <> Some (Group.field g))
    pre labels ->
  (forall l label post,
      label_of s r l = Ok label -> field_at s l = Some (Group.field g) ->
      pathAggFunction Date_parse s (r :: data) (pre ++ l :: post) group name
      = Ok (String.concat " > " (labels ++ [label])))
  /\ (pre <> [] ->
      pathAggFunction Date_parse s (r :: data) pre group name = Ok (trail labels)).
Proof.
  intros Hg Hpre. split.
  - intros l label post Hl Hf. unfold pathAggFunction.
    destruct (pre ++ l :: post) eqn:E; [now destruct pre|]. rewrite <- E, Hg. cbn [lookup].
    change ((r :: data) !! 0%nat) with (Some r).
    rewrite (path_loop_pre _ _ _ _ _ _ _ Hpre). cbn [path_loop].
    unfold label_of, field_at in Hl, Hf. destruct (s !! l) as [gl|]; [|discriminate].
    simpl in Hf. rewrite bool_decide_true by congruence. cbn [negb].
    destruct (group_value Date_parse gl r) as [v|]; [|discriminate].
    cbn [result_bind] in Hl |- *. injection Hl as <-.
    change (EmptyString +:+ trail labels) with (trail labels). now rewrite trail_concat.
  - intros Hne.
    assert (pathAggFunction Date_parse s (r :: data) pre group name
            = path_loop Date_parse s (Some r) pre g EmptyString) as ->.
    { unfold pathAggFunction. destruct pre; [done|]. now rewrite Hg. }
    rewrite <- (app_nil_r pre). now rewrite (path_loop_pre _ _ _ _ _ _ _ Hpre).
Qed.

(** X14.  [pathAggFunction] returns the empty string when [groups] is empty,
    whatever the records are, and throws on an empty bucket as soon as
    [groups] is not empty. *)
Theorem pathAggFunction_edges (s : store) group name :
  (forall data, pathAggFunction Date_parse s data [] group name = Ok EmptyString)
  /\ (forall l groups, pathAggFunction Date_parse s [] (l :: groups) group name = TypeError).
Proof.
  split; [reflexivity|]. intros l groups. unfold pathAggFunction.
  destruct (s !! group) as [g|]; [|reflexivity]. cbn [path_loop].
  destruct (s !! l) as [gl|]; [|reflexivity]. now destruct (negb _).
Qed.

End Paths.

(** ** When [groupBy] does not throw *)







Section Succeeds.

Context (Date_parse : string -> option Z).







End Succeeds.




Section NoThrow.

Context (Date_parse : string -> option Z) (downloadFields : list string).

Local Abbreviation groupBy' :=
  (groupBy Date_parse downloadFields (aggFunction Date_parse) (pathAggFunction Date_parse)).
Local Abbreviation node_for' :=
  (node_for Date_parse downloadFields (aggFunction Date_parse) (pathAggFunction Date_parse)).


End NoThrow.

(** *** Examples *)


(** The specs have to be distinct objects: listed twice, a spec whose field
    nests a second [date_trunc] is parsed again by the recursion under the
    first node, and the second node then gets an empty bucket, on which
    [pathAggFunction] throws. *)
Example groupBy_total_repeated_spec :
  (sample_groupBy
     [ record_of [("date_trunc(month)", VStr "2018-03-15T00:00:00Z")];
       record_of [("date_trunc(month)", VStr "2019-03-15T00:00:00Z")] ]
     [0%nat; 0%nat] [0%nat; 0%nat]
     {[ 0%nat := by_field "date_trunc(year,date_trunc(month))" ]}).1 = TypeError.
Proof. vm_compute. reflexivity. Qed.

(** ** The paths of a tree *)

Section Crumbs.

Context (Date_parse : string -> option Z) (downloadFields : list string).
Context (aggFunc : list record -> Group.t -> value -> result (list aggval)).

Local Abbreviation groupBy' :=
  (groupBy Date_parse downloadFields aggFunc (pathAggFunction Date_parse)).
Local Abbreviation node_for' :=
  (node_for Date_parse downloadFields aggFunc (pathAggFunction Date_parse)).

(** The string forms of the values of [r] under [specs]. *)
Definition labels_of (specs : list Group.t) (r : record) : result (list string) :=
  result_mapM (fun g => let? v := group_value Date_parse g r in Ok (JS.ToString v)) specs.

(** In the tree [t] built for the levels [below], under the levels [above],
    the path of every node joins the values of the first record of the node's
    bucket under the specs down to the node's level. *)
Fixpoint paths_of (above below : list Group.t) (t : tree) : Prop :=
  match below with
  | [] => True
  | g :: below' =>
      exists r, t = Branch r /\
        Forall (fun n =>
            (exists rec labels,
                head (Node.data n) = Some rec
                /\ labels_of (above ++ [g]) rec = Ok labels
                /\ Node.path n = String.concat " > " labels)
            /\ paths_of (above ++ [g]) below' (Node.drilldown n)) r
  end.

Lemma path_loop_inv (s : store) r pre gs_pre l gl post g path p :
  Forall2 (fun l g' => s !! l = Some g') pre gs_pre -> s !! l = Some gl ->
  Forall (fun g' => Group.field g' <> Group.field g) gs_pre ->
  Group.field gl = Group.field g ->
  path_loop Date_parse s (Some r) (pre ++ l :: post) g path = Ok p ->
  exists labels,
    labels_of (gs_pre ++ [gl]) r = Ok labels /\ p = path +:+ String.concat " > " labels.
Proof.
  intros Hpre Hl Hfields Hfield. revert path Hfields.
  induction Hpre as [|l' g' pre gs_pre Hl' _ IH]; intros path Hfields H.
  - cbn [app path_loop] in H. rewrite Hl in H.
    rewrite bool_decide_true in H by exact Hfield. cbn [negb] in H.
    unfold labels_of. cbn [app result_mapM].
    destruct (group_value Date_parse gl r) as [v|]; [|discriminate].
    cbn [result_bind] in H |- *. injection H as <-. now eexists.
  - apply list.Forall_cons in Hfields as [Hne Hfields].
    cbn [app path_loop] in H. rewrite Hl' in H.
    rewrite bool_decide_false in H by exact Hne. cbn [negb] in H.
    unfold labels_of. cbn [app result_mapM].
    destruct (group_value Date_parse g' r) as [v|]; [|discriminate].
    cbn [result_bind] in H |- *.
    destruct (IH _ Hfields H) as (labels & Hlabels & ->).
    unfold labels_of in Hlabels. rewrite Hlabels. cbn [result_bind].
    eexists. split; [reflexivity|].
    destruct labels as [|label labels].
    { destruct gs_pre; cbn [app result_mapM] in Hlabels.
      - destruct (group_value Date_parse gl r); discriminate.
      - destruct (group_value Date_parse t r); [|discriminate]. cbn [result_bind] in Hlabels.
        destruct (result_mapM _ _); discriminate. }
    now rewrite !string_app_assoc.
Qed.

Lemma mapM_node_advances data group rest full names :
  effect advances (mapM (node_for' (fun f => groupBy' f rest full) data group full) names).
Proof.
  apply effect_mapM; [apply advances_refl|apply advances_trans|]. intros name.
  apply node_for_effect; [apply advances_refl|apply advances_trans|].
  intros f s r s' H. eapply evolves_advances, groupBy_evolves, H.
Qed.

Lemma groupBy_paths_from rest : forall pre data (s : store) t s1,
  stable_on s rest -> (forall l, l ∈ pre -> settled_at s l) ->
  groupBy' data rest (pre ++ rest) s = (Ok t, s1) ->
  forall (s2 : store) gs_pre gs_rest,
    advances s1 s2 ->
    Forall2 (fun l g => s2 !! l = Some g) pre gs_pre ->
    Forall2 (fun l g => s2 !! l = Some g) rest gs_rest ->
    NoDup (map Group.field (gs_pre ++ gs_rest)) ->
    paths_of gs_pre gs_rest t.
Proof.
  induction rest as [|group rest IH];
    intros pre data s t s1 Hstable Hsettled H s2 gs_pre gs_rest Hadv Hpre Hrest Hfields.
  { apply Forall2_nil_inv_l in Hrest as ->. exact I. }
  apply Forall2_cons_inv_l in Hrest as (g2 & gs_rest' & Hg2 & Hrest & ->).
  destruct (s !! group) as [g|] eqn:Hg;
    [|rewrite (groupBy_cons_None _ _ _ _ _ _ _ _ _ Hg) in H; discriminate].
  rewrite (groupBy_cons_step _ _ _ _ _ _ _ _ _ _ Hg) in H. cbv zeta in H.
  destruct (parse_datasets (Group.datasets g)).1 eqn:Hparse; [|discriminate].
  destruct (unique_names Date_parse data (parsed g)) as [names|] eqn:Hnames; [|discriminate].
  apply bind_Ok_inv in H as (r & s1' & Hr & H). inversion H; subst; clear H.
  assert (parse_step g = parsed g) as Hstep by (unfold parse_step; now rewrite Hparse).
  rewrite Hstep in Hr.
  assert (settled (parsed g)) as Hset.
  { rewrite <- Hstep. apply stable_settled. eapply Hstable; [left|exact Hg]. }
  assert (advances s (<[group := parsed g]> s)) as Hadv0.
  { rewrite <- Hstep. eapply evolves_advances, (evolves_insert [group]); [exact Hg|left]. }
  exists r. split; [reflexivity|].
  assert (forall ns (sA : store) r,
            (forall n, n ∈ ns -> n ∈ names) ->
            stable_on sA rest -> (forall l, l ∈ pre -> settled_at sA l) ->
            sA !! group = Some (parsed g) ->
            mapM (node_for' (fun f => groupBy' f rest (pre ++ group :: rest)) data group
                    (pre ++ group :: rest)) ns sA = (Ok r, s1) ->
            Forall (fun n =>
              (exists rec labels,
                  head (Node.data n) = Some rec
                  /\ labels_of (gs_pre ++ [g2]) rec = Ok labels
                  /\ Node.path n = String.concat " > " labels)
              /\ paths_of (gs_pre ++ [g2]) gs_rest' (Node.drilldown n)) r) as Hnodes.
  { induction ns as [|name ns IHns]; intros sA r0 Hsub HstA HsetA HgA Hmap.
    { inversion Hmap; subst. constructor. }
    cbn [mapM] in Hmap. apply bind_Ok_inv in Hmap as (n & sB & Hnode & Hmap).
    apply bind_Ok_inv in Hmap as (r' & sC & Hmap & Hret). inversion Hret; subst; clear Hret.
    apply node_for_inv in Hnode
      as (g' & sA' & sB' & Hbucket & Hg' & _ & Hrec & EA & EB & Hpath & Hname & _).
    subst sA' sB'.
    rewrite HgA in Hg'. injection Hg' as <-.
    assert (advances sA sB) as HAB by (eapply evolves_advances, groupBy_evolves, Hrec).
    assert (advances sB s1) as HB1 by (eapply mapM_node_advances, Hmap).
    assert (advances sB s2) as HB2 by (eapply advances_trans; eassumption).
    assert (settled_at sA group) as HsetG by (intros ? E; rewrite HgA in E; now injection E as <-).
    assert (forall l, l ∈ pre ++ [group] -> settled_at sA l) as HsetA'.
    { intros l Hl. apply elem_of_app in Hl as [Hl|Hl]; [now apply HsetA|].
      apply list_elem_of_singleton in Hl as ->. exact HsetG. }
    assert (forall l g0, l ∈ pre ++ [group] -> s2 !! l = Some g0 -> sB !! l = Some g0) as Hsame.
    { intros l g0 Hl E. destruct (advances_settled _ _ l HAB (HsetA' l Hl)) as [E1 HsetB].
      destruct (advances_settled _ _ l HB2 HsetB) as [E2 _]. now rewrite <- E2. }
    assert (g2 = parsed g) as ->.
    { pose proof (Hsame group g2 ltac:(apply elem_of_app; right; left) Hg2) as E.
      destruct (advances_settled _ _ group HAB HsetG) as [E1 _]. rewrite E1, HgA in E.
      now injection E. }
    constructor.
    - split.
      + assert (Node.data n <> []) as Hne.
        { eapply bucket_of_name_nonempty; [exact Hnames| |exact Hbucket]. apply Hsub. left. }
        destruct (Node.data n) as [|rec f] eqn:Hdata; [done|].
        unfold pathAggFunction in Hpath.
        destruct (pre ++ group :: rest) eqn:Hfull; [now destruct pre|]. rewrite <- Hfull in Hpath.
        rewrite (Hsame group (parsed g)) in Hpath by (done || apply elem_of_app; right; left).
        change ((rec :: f) !! 0%nat) with (Some rec) in Hpath.
        apply (path_loop_inv _ _ _ gs_pre _ (parsed g)) in Hpath as (labels & Hlabels & Hp).
        * exists rec, labels. repeat split; [exact Hlabels|]. rewrite Hp. reflexivity.
        * assert (forall l g0, l ∈ pre -> s2 !! l = Some g0 -> sB !! l = Some g0) as Hsame'
            by (intros l0 g0 Hl0; apply Hsame, elem_of_app; now left).
          clear -Hpre Hsame'.
          induction Hpre as [|l g0 pre gs_pre E _ IHp]; constructor.
          -- apply Hsame'; [left|exact E].
          -- apply IHp. intros l' g' Hl'. apply Hsame'. now right.
        * apply Hsame; [apply elem_of_app; right; left|exact Hg2].
        * rewrite map_app in Hfields. cbn [map] in Hfields.
          apply list.NoDup_app in Hfields as (_ & Hdisj & _).
          apply list.Forall_forall. intros g0 Hg0 Heq.
          apply (Hdisj (Group.field g0)); [now apply list_elem_of_fmap_2|].
          rewrite Heq. left.
        * reflexivity.
      + eapply (IH (pre ++ [group]) (Node.data n) sA _ sB).
        * exact HstA.
        * exact HsetA'.
        * rewrite <- app_assoc. exact Hrec.
        * exact HB2.
        * apply Forall2_app; [exact Hpre|]. constructor; [exact Hg2|constructor].
        * exact Hrest.
        * now rewrite <- app_assoc.
    - eapply IHns; [intros n0 Hn0; apply Hsub; now right| | | |exact Hmap].
      + eapply advances_stable; eassumption.
      + intros l Hl. now apply (advances_settled _ _ l HAB (HsetA l Hl)).
      + destruct (advances_settled _ _ group HAB HsetG) as [E _]. now rewrite E. }
  eapply (Hnodes _ _ r); [| | | |exact Hr].
  - intros n Hn. now rewrite (sort_Permutation JS.default_compare names) in Hn.
  - eapply advances_stable; [exact Hadv0|]. intros l g0 Hl. apply Hstable. now right.
  - intros l Hl. destruct (decide (l = group)) as [->|Hne].
    + intros g0 E. rewrite lookup_insert_eq in E. now injection E as <-.
    + intros g0 E. rewrite lookup_insert_ne in E by done. now apply (Hsettled l Hl).
  - apply lookup_insert_eq.
Qed.

(** X16.  The paths of a whole tree.  When [fullGroupBy] is the list of
    specs itself, every spec is stable and the specs, as the call leaves them,
    have distinct fields, the path of every node, at any depth, joins with
    [" > "] the values that the first record of the node's bucket takes under
    the specs from the top level down to the node's own. *)
Theorem groupBy_paths data groups (s : store) t s' specs :
  stable_on s groups ->
  groupBy' data groups groups s = (Ok t, s') ->
  Forall2 (fun l g => s' !! l = Some g) groups specs ->
  NoDup (map Group.field specs) ->
  paths_of [] specs t.
Proof.
  intros Hstable H Hspecs Hfields.
  eapply (groupBy_paths_from groups [] data s t s'); try done.
  - intros l Hl. now apply elem_of_nil in Hl.
  - apply advances_refl.
Qed.

End Crumbs.

(** *** Examples *)

(** The paths of a tree, parents before children. *)
Fixpoint tree_paths (t : tree) : list string :=
  match t with
  | Leaf _ => []
  | Branch r => flat_map (fun n => Node.path n :: tree_paths (Node.drilldown n)) r
  end.

Lemma groupBy_paths_witness :
  exists t s' specs,
    sample_groupBy dated_records [0%nat; 1%nat] [0%nat; 1%nat] two_levels = (Ok t, s')
    /\ Forall2 (fun l g => s' !! l = Some g) [0%nat; 1%nat] specs
    /\ paths_of JS.iso_Date_parse [] specs t
    /\ tree_paths t = ["A"; "A > 2018-03"; "A > 2018-04"; "B"; "B > 2018-03"].
Proof.
  eexists _, _, _. split; [vm_compute; reflexivity|].
  split; [constructor; [reflexivity|constructor; [reflexivity|constructor]]|].
  split; [|reflexivity].
  eapply (groupBy_paths JS.iso_Date_parse [] (aggFunction JS.iso_Date_parse)
            dated_records [0%nat; 1%nat] two_levels).
  - intros l g Hl Hg. destruct l as [|[|l]].
    + vm_compute in Hg. inversion Hg; subst. reflexivity.
    + vm_compute in Hg. inversion Hg; subst. reflexivity.
    + exfalso. apply elem_of_cons in Hl as [Hl|Hl]; [discriminate|].
      apply elem_of_cons in Hl as [Hl|Hl]; [discriminate|]. now apply elem_of_nil in Hl.
  - vm_compute. reflexivity.
  - constructor; [reflexivity|constructor; [reflexivity|constructor]].
  - apply (bool_decide_unpack _). vm_compute. exact I.
Defined.

(** ** Parsing the field of a spec *)

Lemma string_forallb_app p a b :
  string_forallb p (a +:+ b) = string_forallb p a && string_forallb p b.
Proof.
  induction a as [|c a IH]; [reflexivity|].
  change (String c a +:+ b) with (String c (a +:+ b)). simpl. now rewrite IH, andb_assoc.
Qed.

Lemma split_comma_lacks s : lacks "," s -> JS.split_comma s = [s].
Proof.
  induction s as [|c s IH]; [reflexivity|].
  intros [Hc Hs]%lacks_cons. simpl. now rewrite Hc, (IH Hs).
Qed.

Lemma split_comma_app a b :
  lacks "," a -> JS.split_comma (a +:+ String "," b) = a :: JS.split_comma b.
Proof.
  induction a as [|c a IH]; [reflexivity|].
  intros [Hc Ha]%lacks_cons. change (String c a +:+ String "," b) with (String c (a +:+ String "," b)).
  simpl. now rewrite Hc, (IH Ha).
Qed.

Lemma match_parens_greedy pre inner post :
  lacks "(" pre -> one_line inner -> lacks ")" post ->
  JS.match_parens (pre +:+ String "(" (inner +:+ String ")" post)) = Some inner.
Proof.
  intros Hpre Hinner Hpost. pose proof (parseAggStr_greedy pre inner post Hpre Hinner Hpost) as H.
  unfold parseAggStr in H. destruct (JS.match_parens _); [now injection H as ->|discriminate].
Qed.

(** X17.  [parseGroupByField] returns the object it was given.  A field that
    does not start with [date_trunc] leaves it as it is.  The two-argument
    form gives it the modifier, the two parameters and the second parameter
    as its field; the one-argument form gives it the modifier and the one
    parameter, and leaves it without a field.  Series and chart are kept. *)
Theorem parseGroupByField_forms (s : store) group g :
  s !! group = Some g ->
  (forall str, JS.test_prefix "date_trunc" (JS.key_of str) = false ->
     parseGroupByField group str s = (Ok group, s))
  /\ (forall unit field,
        one_line unit -> lacks "," unit -> one_line field -> lacks "," field ->
        parseGroupByField group (Some ("date_trunc(" +:+ unit +:+ "," +:+ field +:+ ")")) s
        = (Ok group,
           <[group := {| Group.field := Some field;
                         Group.datasets := Group.datasets g;
                         Group.chart := Group.chart g;
                         Group.modifier := Some "date_trunc";
                         Group.modifierParams := Some [unit; field] |}]> s))
  /\ (forall unit,
        one_line unit -> lacks "," unit ->
        parseGroupByField group (Some ("date_trunc(" +:+ unit +:+ ")")) s
        = (Ok group,
           <[group := {| Group.field := None;
                         Group.datasets := Group.datasets g;
                         Group.chart := Group.chart g;
                         Group.modifier := Some "date_trunc";
                         Group.modifierParams := Some [unit] |}]> s)).
Proof.
  intros Hg. unfold parseGroupByField, bind, deref, assign, ret. rewrite Hg.
  split; [|split].
  - intros str Hstr. unfold parse_field. rewrite Hstr. now rewrite insert_id.
  - intros unit field Hu1 Hu2 Hf1 Hf2. do 2 f_equal. unfold parse_field. cbn [JS.key_of].
    replace ("date_trunc(" +:+ unit +:+ "," +:+ field +:+ ")")
      with ("date_trunc" +:+ String "(" ((unit +:+ "," +:+ field) +:+ String ")" EmptyString))
      by (change ("date_trunc(" +:+ ?x) with ("date_trunc" +:+ String "(" x);
          now rewrite !string_app_assoc).
    rewrite match_parens_greedy; [| reflexivity | | reflexivity].
    + change (JS.test_prefix "date_trunc" ("date_trunc" +:+ ?x)) with true. cbv iota.
      change ("," +:+ field) with (String "," field).
      rewrite (split_comma_app _ _ Hu2), (split_comma_lacks _ Hf2). reflexivity.
    + unfold one_line in *. rewrite !string_forallb_app, Hu1, Hf1. reflexivity.
  - intros unit Hu1 Hu2. do 2 f_equal. unfold parse_field. cbn [JS.key_of].
    change ("date_trunc(" +:+ unit +:+ ")")
      with ("date_trunc" +:+ String "(" (unit +:+ String ")" EmptyString)).
    rewrite match_parens_greedy; [| reflexivity | exact Hu1 | reflexivity].
    change (JS.test_prefix "date_trunc" ("date_trunc" +:+ ?x)) with true. cbv iota.
    now rewrite (split_comma_lacks _ Hu2).
Qed.

Lemma parseGroupByField_forms_witness :
  parseGroupByField 0%nat (Some "company") {[ 0%nat := by_field "company" ]}
  = (Ok 0%nat, {[ 0%nat := by_field "company" ]})
  /\ parseGroupByField 0%nat (Some "date_trunc(month,startdate)")
       {[ 0%nat := by_field "date_trunc(month,startdate)" ]}
     = (Ok 0%nat,
        <[ 0%nat := {| Group.field := Some "startdate"; Group.datasets := [];
                       Group.chart := None; Group.modifier := Some "date_trunc";
                       Group.modifierParams := Some ["month"; "startdate"] |} ]>
          {[ 0%nat := by_field "date_trunc(month,startdate)" ]})
  /\ parseGroupByField 0%nat (Some "date_trunc(month)")
       {[ 0%nat := by_field "date_trunc(month)" ]}
     = (Ok 0%nat,
        <[ 0%nat := {| Group.field := None; Group.datasets := [];
                       Group.chart := None; Group.modifier := Some "date_trunc";
                       Group.modifierParams := Some ["month"] |} ]>
          {[ 0%nat := by_field "date_trunc(month)" ]}).
Proof.
  split; [|split].
  - apply (proj1 (parseGroupByField_forms {[ 0%nat := by_field "company" ]} 0%nat
                    (by_field "company") (lookup_singleton_eq _ _))).
    reflexivity.
  - apply (proj1 (proj2 (parseGroupByField_forms
                           {[ 0%nat := by_field "date_trunc(month,startdate)" ]} 0%nat
                           (by_field "date_trunc(month,startdate)") (lookup_singleton_eq _ _)))
             "month" "startdate"); reflexivity.
  - apply (proj2 (proj2 (parseGroupByField_forms
                           {[ 0%nat := by_field "date_trunc(month)" ]} 0%nat
                           (by_field "date_trunc(month)") (lookup_singleton_eq _ _)))
             "month"); reflexivity.
Defined.

(** ** The aggregates of a node *)

Section NodeAggregates.

Context (Date_parse : string -> option Z) (downloadFields : list string).
Context (pathAggFunc : store -> list record -> list loc -> loc -> value -> result string).

Local Abbreviation groupBy' :=
  (groupBy Date_parse downloadFields (aggFunction Date_parse) pathAggFunc).
Local Abbreviation node_for' :=
  (node_for Date_parse downloadFields (aggFunction Date_parse) pathAggFunc).

Lemma counted_idem data g name :
  counted Date_parse (counted Date_parse data g name) g name = counted Date_parse data g name.
Proof.
  unfold counted. induction data as [|r data IH]; [reflexivity|].
  rewrite filter_cons. case_decide as Hr; [|exact IH].
  rewrite filter_cons, decide_True by exact Hr. now rewrite IH.
Qed.

(** An aggregate reads the records only through those it counts in. *)
Lemma aggregate_counted data data' g name dataset :
  Forall (fun r => matches Date_parse g name r <> TypeError) data ->
  Forall (fun r => matches Date_parse g name r <> TypeError) data' ->
  counted Date_parse data g name = counted Date_parse data' g name ->
  aggregate Date_parse data g name dataset = aggregate Date_parse data' g name dataset.
Proof.
  intros Hall Hall' Heq. unfold aggregate.
  destruct (JS.test_prefix "sum" _).
  { rewrite !(fold_counted Date_parse
               (fun acc r => JS.add (JS.parseInt (get r (JS.key_of (Dataset.aggField dataset)))) acc))
      by assumption. now rewrite Heq. }
  destruct (JS.test_prefix "max" _).
  { rewrite !running_max by assumption. now rewrite Heq. }
  destruct (JS.test_prefix "min" _).
  { rewrite !running_min by assumption. now rewrite Heq. }
  destruct (JS.test_prefix "count" _).
  { rewrite !(fold_counted Date_parse (fun acc _ => JS.add acc (Num (Qc_of_Z 1))))
      by assumption. now rewrite Heq. }
  destruct (JS.test_prefix "boxplot" _); [|reflexivity].
  rewrite !fold_boxplot by assumption. cbv zeta. now rewrite Heq.
Qed.

Lemma aggFunction_counted data data' g name :
  Forall (fun r => matches Date_parse g name r <> TypeError) data ->
  Forall (fun r => matches Date_parse g name r <> TypeError) data' ->
  counted Date_parse data g name = counted Date_parse data' g name ->
  aggFunction Date_parse data g name = aggFunction Date_parse data' g name.
Proof.
  intros Hall Hall' Heq. unfold aggFunction. f_equal.
  induction (Group.datasets g) as [|d ds IH]; [reflexivity|].
  cbn [result_mapM]. now rewrite (aggregate_counted data data' g name d), IH.
Qed.

(** The nodes of a level carry the aggregates of their buckets, computed
    under the spec as the level parsed it. *)
Lemma mapM_node_y data group rest full names (s : store) g r s' :
  group ∉ rest -> s !! group = Some g ->
  mapM (node_for' (fun f => groupBy' f rest full) data group full) names s = (Ok r, s') ->
  Forall (fun n => aggFunction Date_parse (Node.data n) g (Node.name n) = Ok (Node.y n)
                   /\ Node.data n = counted Date_parse data g (Node.name n)) r.
Proof.
  intros Hrest. revert s r. induction names as [|name names IH]; intros s r Hg H; simpl in H.
  - inversion H. constructor.
  - apply bind_Ok_inv in H as (n & s1 & Hn & H).
    apply bind_Ok_inv in H as (ns & s2 & Hns & H). inversion H; subst; clear H.
    assert (s1 !! group = Some g) as Hg1.
    { assert (evolves rest s s1) as Hev.
      { eapply (node_for_effect Date_parse downloadFields (aggFunction Date_parse) pathAggFunc
                  (evolves rest));
          [apply evolves_refl | apply evolves_trans | intros f; apply groupBy_evolves | exact Hn]. }
      destruct (Hev group) as (k & E & F). now rewrite E, Hg, (F Hrest). }
    apply node_for_inv in Hn as (g' & ? & ? & Hb & Hg' & Hy & _ & _ & _ & _ & Hname & _).
    rewrite Hg in Hg'. inversion Hg'; subst g'.
    constructor; [|eapply IH, Hns; exact Hg1].
    rewrite Hname. split; [exact Hy|]. now apply bucket_filter.
Qed.

(** X18.  The aggregates of a node.  When the spec of a level is not listed
    again below it, the [y] of each of its nodes is what [aggFunction] returns
    on the node's own records, and also what it returns on all the records of
    the level: the records of a node are those [aggFunction] counts in under
    the node's name, so that filtering them a second time changes nothing. *)
Theorem groupBy_node_aggregates data group rest full (s : store) g r s' :
  s !! group = Some g -> group ∉ rest ->
  groupBy' data (group :: rest) full s = (Ok (Branch r), s') ->
  Forall (fun n =>
      aggFunction Date_parse (Node.data n) (parsed g) (Node.name n) = Ok (Node.y n)
      /\ aggFunction Date_parse data (parsed g) (Node.name n) = Ok (Node.y n)
      /\ counted Date_parse (Node.data n) (parsed g) (Node.name n) = Node.data n) r.
Proof.
  intros Hg Hrest H.
  apply (groupBy_cons_Ok_inv _ _ _ _ _ _ _ _ _ _ _ _ Hg) in H
    as (names & r' & Hnames & Hr & [= <-]).
  apply unique_names_spec in Hnames as (_ & _ & Hdefined).
  eapply mapM_node_y in Hr; [|exact Hrest|apply lookup_insert_eq].
  eapply list.Forall_impl; [exact Hr|]. intros n [Hy Hdata]. cbv beta.
  assert (forall name, Forall (fun r => matches Date_parse (parsed g) name r <> TypeError) data)
    as Hall.
  { intros name. eapply list.Forall_impl; [exact Hdefined|]. intros rec (v & Hv).
    unfold matches. now rewrite Hv. }
  assert (counted Date_parse (Node.data n) (parsed g) (Node.name n) = Node.data n) as Hidem
    by (rewrite Hdata at 1 2; apply counted_idem).
  split; [exact Hy|]. split; [|exact Hidem].
  rewrite <- Hy. apply aggFunction_counted.
  - apply Hall.
  - rewrite Hdata. unfold counted. apply list.Forall_forall. intros rec Hrec.
    apply list_elem_of_filter in Hrec as [_ Hrec].
    pose proof (Hall (Node.name n)) as Hn. rewrite list.Forall_forall in Hn. now apply Hn.
  - now rewrite Hidem, Hdata.
Qed.

End NodeAggregates.

(** *** Examples *)

Lemma groupBy_node_aggregates_witness :
  exists r s',
    sample_groupBy abc_records [0%nat] [0%nat] {[ 0%nat := by_g ["sum(v)"; "count(v)"] ]}
    = (Ok (Branch r), s')
    /\ Forall (fun n =>
         aggFunction JS.iso_Date_parse (Node.data n)
           (parsed (by_g ["sum(v)"; "count(v)"])) (Node.name n) = Ok (Node.y n)
         /\ aggFunction JS.iso_Date_parse abc_records
              (parsed (by_g ["sum(v)"; "count(v)"])) (Node.name n) = Ok (Node.y n)
         /\ counted JS.iso_Date_parse (Node.data n)
              (parsed (by_g ["sum(v)"; "count(v)"])) (Node.name n) = Node.data n) r.
Proof.
  eexists _, _. split; [vm_compute; reflexivity|].
  eapply (groupBy_node_aggregates JS.iso_Date_parse [] (pathAggFunction JS.iso_Date_parse)
            abc_records 0%nat [] [0%nat] {[ 0%nat := by_g ["sum(v)"; "count(v)"] ]}).
  - reflexivity.
  - apply not_elem_of_nil.
  - vm_compute. reflexivity.
Defined.

(** ** Downloads *)

Lemma replace_commas_lacks s : lacks "," (JS.replace_commas s).
Proof.
  induction s as [|c s IH]; [reflexivity|]. cbn [JS.replace_commas].
  apply lacks_cons. split; [|exact IH].
  destruct (Ascii.eqb c ",") eqn:E; [reflexivity|exact E].
Qed.

Lemma replace_commas_length s : String.length (JS.replace_commas s) = String.length s.
Proof. induction s as [|c s IH]; [reflexivity|]. cbn. now rewrite IH. Qed.

Lemma replace_commas_id s : lacks "," s -> JS.replace_commas s = s.
Proof.
  induction s as [|c s IH]; [reflexivity|]. intros [Hc Hs]%lacks_cons.
  cbn [JS.replace_commas]. now rewrite Hc, (IH Hs).
Qed.

(** X19.  [downloadDataToCsv] writes to the series it is given: it leaves in
    [series.path] the path with every comma turned into a space, a string of
    the same length.  A second download of the same series and records
    exports the same text as the first, and changes the series no more. *)
Theorem downloadDataToCsv_series title path downloadObj data :
  let first := downloadDataToCsv title path downloadObj data in
  first.2 = JS.replace_commas <$> path
  /\ (forall p, first.2 = Some p ->
        lacks "," p /\ exists p0, path = Some p0 /\ String.length p = String.length p0)
  /\ downloadDataToCsv title first.2 downloadObj data = first.
Proof.
  cbv zeta. unfold downloadDataToCsv. destruct path as [p0|]; cbn [snd fmap option_fmap option_map].
  - split; [reflexivity|]. split.
    + intros p [= <-]. split; [apply replace_commas_lacks|].
      exists p0. split; [reflexivity|apply replace_commas_length].
    + now rewrite (replace_commas_id _ (replace_commas_lacks p0)).
  - split; [reflexivity|]. split; [discriminate|reflexivity].
Qed.

(** ** Sums and averages *)









(** *** Examples *)

Lemma downloadDataToCsv_series_witness :
  let first := downloadDataToCsv (VStr "Sales") (Some "Nucore, Inc > 2018-01") ["g"; "v"]
                 abc_records in
  first.2 = Some "Nucore  Inc > 2018-01"
  /\ downloadDataToCsv (VStr "Sales") first.2 ["g"; "v"] abc_records = first.
Proof.
  pose proof (downloadDataToCsv_series (VStr "Sales") (Some "Nucore, Inc > 2018-01") ["g"; "v"]
                abc_records) as (H1 & _ & H3).
  split; [exact H1|exact H3].
Defined.


(** *** Examples of paths *)

Definition company_division : store :=
  {[ 0%nat := by_field "company"; 1%nat := by_field "division" ]}.

Definition nucore : record :=
  record_of [("company", VStr "Nucore"); ("division", VStr "Development")].

Lemma pathAggFunction_breadcrumb_witness :
  pathAggFunction JS.iso_Date_parse company_division [nucore] [0%nat; 1%nat] 1%nat
    (VStr "Development")
  = Ok "Nucore > Development"
  /\ pathAggFunction JS.iso_Date_parse company_division [nucore] [0%nat] 1%nat
       (VStr "Development")
     = Ok "Nucore > ".
Proof.
  assert (Forall2 (fun l label =>
              label_of JS.iso_Date_parse company_division nucore l = Ok label
              /\ field_at company_division l <> Some (Group.field (by_field "division")))
            [0%nat] ["Nucore"]) as Hpre
    by (constructor; [split; [reflexivity|discriminate]|constructor]).
  destruct (pathAggFunction_breadcrumb JS.iso_Date_parse company_division nucore []
              [0%nat] ["Nucore"] 1%nat (by_field "division") (VStr "Development")
              eq_refl Hpre) as [Hstop Hall].
  split.
  - exact (Hstop 1%nat "Development" [] eq_refl eq_refl).
  - apply Hall. discriminate.
Defined.

(** ** The records of a whole tree *)


Section WholeTree.

Context (Date_parse : string -> option Z) (downloadFields : list string).
Context (aggFunc : list record -> Group.t -> value -> result (list aggval)).
Context (pathAggFunc : store -> list record -> list loc -> loc -> value -> result string).

Local Abbreviation groupBy' := (groupBy Date_parse downloadFields aggFunc pathAggFunc).
Local Abbreviation node_for' := (node_for Date_parse downloadFields aggFunc pathAggFunc).







End WholeTree.

(** *** Examples *)


(** ** The totals of a level *)








Section Totals.

Context (Date_parse : string -> option Z) (downloadFields : list string).
Context (aggFunc : list record -> Group.t -> value -> result (list aggval)).
Context (pathAggFunc : store -> list record -> list loc -> loc -> value -> result string).

Local Abbreviation groupBy' := (groupBy Date_parse downloadFields aggFunc pathAggFunc).


End Totals.

(** *** Examples *)

